(** * smarkov: a variable-order Markov chain (src/smarkov/markov.py)

    Shallow embedding of the [Markov] class: the trainer
    ([_compute_transitions], [_compute_relative_probs]), the constructor
    ([__init__]) and the generator ([_text_generator], [generate_text],
    [_generate_next_token_helper]).

    Conventions of the embedding:
    - a token is a Python string; a history key (a tuple of tokens) is a
      list of tokens;
    - Python integers are [Z]; the table of the model holds the exact
      ratios [count / total] as rationals [Q], which the statements on
      keys, on positive weights and on generation are about; the values
      the source stores are these ratios computed in binary64 (rounded,
      with the errors of the conversions), and they are modelled apart, by
      [relative_probs_b64], for the statements on the stored values;
    - a [dict] is a stdpp [gmap]; the [defaultdict] behaviour of the
      transition table (a lookup of a missing key inserts the default) is
      written out in [table_getitem];
    - the generator runs in a small state-and-exception monad whose state
      holds the model object [self] and the global random source. *)

From Stdlib Require Import QArith Qround Lqa SpecFloat.
From stdpp Require Import gmap strings list fin_maps.

Local Open Scope Z_scope.

(** ** Data model *)

Abbreviation token := string.

(** A history key, [tuple(past_states)] in the source. *)
Abbreviation key := (list token).

(** The sliding history buffer, a [deque] of fixed capacity that is always
    full: its capacity is the length of the list. *)
Abbreviation buffer := (list token).

(** [defaultdict(lambda: defaultdict(int))] while counting. *)
Abbreviation counts := (gmap (list string) (gmap string Z)).

(** The same table after [_compute_relative_probs]. *)
Abbreviation probs := (gmap (list string) (gmap string Q)).

Inductive exn : Type :=
  | AssertionError (msg : string)
  | IndexError
  | EmptyDistribution.

Inductive res (A : Type) : Type :=
  | Ret (a : A)
  | Raise (e : exn)
  | OutOfFuel.
Arguments Ret {A} a.
Arguments Raise {A} e.
Arguments OutOfFuel {A}.

(** ** The utilities module (smarkov/utils.py) *)

(** Modelled from the spec: [utils.prefilled_buffer], which is not part of
    the source at hand. "A fixed-capacity FIFO of length [order],
    constructible pre-filled with a sentinel value". *)
Definition prefilled_buffer (start : token) (length : Z) : buffer :=
  replicate (Z.to_nat length) start.

(** Modelled from the spec: the [append] of that buffer,
    "append-with-eviction-of-oldest": "the buffer always holds exactly the
    most recent [order] tokens". A buffer of capacity 0 stays empty. *)
Definition buffer_append (x : token) (buf : buffer) : buffer :=
  match buf with
  | [] => []
  | _ :: rest => rest ++ [x]
  end.

(** Modelled from the spec: [utils.get_suffixes], "all of its trailing
    contiguous sub-sequences from length 1 to the buffer's full length",
    each one as a tuple. *)
Definition get_suffixes (buf : buffer) : list key :=
  (λ i, drop i buf) <$> seq 0 (length buf).

(** ** The trainer *)

(** [self.transitions[suffix][token_value] += 1] on the nested
    [defaultdict]: a missing suffix starts from the empty inner dictionary,
    a missing token from the count 0. *)
Definition increment (tr : counts) (suffix : key) (token_value : token) : counts :=
  let inner := default ∅ (tr !! suffix) in
  <[suffix := <[token_value := default 0 (inner !! token_value) + 1]> inner]> tr.

Section Trainer.
(** A corpus entry is of any type; [tokenize] splits it into tokens. *)
Context {E : Type}.

Record Markov : Type := mkMarkov {
  order : Z;
  _start_symbol : token;
  _end_symbol : token;
  tokenize : E → list token;
  (** [hasattr(self, "order_emissions")]: set by subclasses only. *)
  order_emissions : option Z;
  transitions : probs
}.

(** The body of [for token_value in chain(tokens, self._end_symbol)]:
    every suffix of the buffer is incremented, then the buffer slides. *)
Definition count_emission (st : counts * buffer) (token_value : token)
  : counts * buffer :=
  (foldl (λ tr suffix, increment tr suffix token_value) st.1 (get_suffixes st.2),
   buffer_append token_value st.2).

(** The body of [for corpus_entry in corpus]. Iterating the one-character
    string [self._end_symbol] yields that character once. *)
Definition count_entry (tokenize : E → list token) (start_symbol end_symbol : token)
    (order : Z) (tr : counts) (corpus_entry : E) : counts :=
  let tokens := tokenize corpus_entry in
  let last_tokens := prefilled_buffer start_symbol order in
  (foldl count_emission (tr, last_tokens) (tokens ++ [end_symbol])).1.

Definition count_corpus (tokenize : E → list token) (start_symbol end_symbol : token)
    (order : Z) (corpus : list E) : counts :=
  foldl (count_entry tokenize start_symbol end_symbol order) ∅ corpus.

(** [sum(transition_counts.values())]. *)
Definition sum_values (transition_counts : gmap string Z) : Z :=
  map_fold (λ _ c acc, c + acc) 0 transition_counts.

(** One iteration of the loop of [_compute_relative_probs], in exact
    arithmetic: with a positive sum every count is replaced by the ratio
    [count * 1.0 / sum], otherwise the counts are left as they are. The
    binary64 value the source stores for a ratio is given by
    [relative_probs_b64]. *)
Definition relative_probs (transition_counts : gmap string Z) : gmap string Q :=
  let summed_occurences := sum_values transition_counts in
  if bool_decide (0 < summed_occurences) then
    (λ c, (inject_Z c * 1 / inject_Z summed_occurences)%Q) <$> transition_counts
  else inject_Z <$> transition_counts.

Definition _compute_relative_probs (prob_dict : counts) : probs :=
  relative_probs <$> prob_dict.

Definition _compute_transitions (tokenize : E → list token)
    (start_symbol end_symbol : token) (order : Z) (corpus : list E) : probs :=
  _compute_relative_probs (count_corpus tokenize start_symbol end_symbol order corpus).

(** [Markov.__init__]; a corpus that is [None] is [None] here. *)
Definition __init__ (corpus : option (list E)) (order : Z)
    (tokenize : E → list token) : res Markov :=
  if bool_decide (order >= 1) then
    if bool_decide (order <= 20) then
      match corpus with
      | Some corpus =>
          Ret {| order := order;
                 _start_symbol := "^";
                 _end_symbol := "$";
                 tokenize := tokenize;
                 order_emissions := None;
                 transitions := _compute_transitions tokenize "^" "$" order corpus |}
      | None => Raise (AssertionError "Corpus is empty")
      end
    else Raise (AssertionError "Markov chain order too high")
  else Raise (AssertionError "Invalid Markov chain order").

End Trainer.
Arguments Markov : clear implicits.

(** ** The generator *)

Record loop_state : Type := mkLoop {
  last_tokens : buffer;
  last_emissions : buffer;
  generated_tokens : list token
}.

Section Generator.
Context {E R : Type}.

(** [utils.weighted_choice] is not part of the source at hand: it is a
    parameter, a function of the items of a distribution and of the global
    random source [R]. It returns [None] when it draws nothing (the
    [EmptyDistribution] of the specification). *)
Variable weighted_choice : list (token * Q) → R → option token * R.

(** What a generation call can read and write: the model object and the
    random source. *)
Record world : Type := mkWorld {
  self : Markov E;
  random : R
}.

Definition M (A : Type) : Type := world → res A * world.

#[global] Instance M_ret : MRet M := λ A a w, (Ret a, w).
#[global] Instance M_bind : MBind M := λ A B f c w,
  match c w with
  | (Ret a, w') => f a w'
  | (Raise e, w') => (Raise e, w')
  | (OutOfFuel, w') => (OutOfFuel, w')
  end.

Definition raise {A} (e : exn) : M A := λ w, (Raise e, w).
Definition out_of_fuel {A} : M A := λ w, (OutOfFuel, w).
Definition get_self : M (Markov E) := λ w, (Ret (self w), w).

(** [key in transitions]: membership does not insert. *)
Definition table_contains (k : key) : M bool :=
  λ w, (Ret (bool_decide (is_Some (transitions (self w) !! k))), w).

Definition set_transitions (t : probs) (m : Markov E) : Markov E :=
  {| order := order m; _start_symbol := _start_symbol m;
     _end_symbol := _end_symbol m; tokenize := tokenize m;
     order_emissions := order_emissions m; transitions := t |}.

(** [transitions[key]] on a [defaultdict]: a missing key is inserted with
    the default value, an empty inner dictionary. *)
Definition table_getitem (k : key) : M (gmap string Q) :=
  λ w, match transitions (self w) !! k with
       | Some d => (Ret d, w)
       | None =>
           (Ret ∅, {| self := set_transitions (<[k := ∅]> (transitions (self w))) (self w);
                      random := random w |})
       end.

(** [utils.weighted_choice(d.items())]. *)
Definition choose (d : gmap string Q) : M token :=
  λ w, match weighted_choice (map_to_list d) (random w) with
       | (Some t, r) => (Ret t, {| self := self w; random := r |})
       | (None, r) => (Raise EmptyDistribution, {| self := self w; random := r |})
       end.

(** [_generate_next_token_helper(past_states, transitions)]; the argument
    [transitions] is [self.transitions] itself, the table of the world. *)
Definition _generate_next_token_helper (past_states : buffer) : M token :=
  let k : key := past_states in
  present ← table_contains k;
  if present : bool then
    d ← table_getitem k;
    choose d
  else raise (AssertionError "key").

Definition _generate_next_token (past_states : buffer) : M token :=
  _generate_next_token_helper past_states.

(** [max_length is not None and max_length + 1 <= len(generated_tokens)]. *)
Definition cap_reached (max_length : option Z) (generated : list token) : bool :=
  match max_length with
  | Some m => bool_decide (m + 1 <= Z.of_nat (length generated))
  | None => false
  end.

(** The body of the loop once the next token is drawn: the emission is
    computed from the buffers as they are, then appended to the emission
    buffer and to the collected output, and the token to the history. *)
Definition record_emission (emit : token → buffer → buffer → token)
    (new_token : token) (st : loop_state) : loop_state :=
  let emission := emit new_token (last_tokens st) (last_emissions st) in
  {| last_tokens := buffer_append new_token (last_tokens st);
     last_emissions := buffer_append emission (last_emissions st);
     generated_tokens := generated_tokens st ++ [emission] |}.

(** The [while] loop of [_text_generator]; [fuel] bounds the number of
    times its condition is evaluated. [last_tokens[-1]] on an empty buffer
    raises [IndexError]. *)
Fixpoint text_loop (next_token : buffer → M token)
    (emit : token → buffer → buffer → token) (max_length : option Z)
    (fuel : nat) (st : loop_state) : M loop_state :=
  match fuel with
  | O => out_of_fuel
  | S fuel =>
      me ← get_self;
      match last (last_tokens st) with
      | None => raise IndexError
      | Some newest =>
          if bool_decide (newest ≠ _end_symbol me) then
            new_token ← next_token (last_tokens st);
            let st' := record_emission emit new_token st in
            if cap_reached max_length (generated_tokens st') then mret st'
            else text_loop next_token emit max_length fuel st'
          else mret st
      end
  end.

(** An iteration of the loop that is followed by another one: the
    condition holds, a token is drawn, and the cap is not reached. *)
Inductive loop_step (next_token : buffer → M token)
    (emit : token → buffer → buffer → token) (max_length : option Z)
  : relation (loop_state * world) :=
  | LoopStep st w newest new_token w' :
      last (last_tokens st) = Some newest →
      newest ≠ _end_symbol (self w) →
      next_token (last_tokens st) w = (Ret new_token, w') →
      cap_reached max_length (generated_tokens (record_emission emit new_token st)) = false →
      loop_step next_token emit max_length (st, w) (record_emission emit new_token st, w').

(** The state the loop starts from. *)
Definition initial_state (me : Markov E) : loop_state :=
  {| last_tokens := prefilled_buffer (_start_symbol me) (order me);
     last_emissions :=
       prefilled_buffer (_start_symbol me)
         (match order_emissions me with Some o => o | None => order me end);
     generated_tokens := [] |}.

Definition _text_generator (fuel : nat) (next_token : option (buffer → M token))
    (emit : token → buffer → buffer → token) (max_length : option Z)
    : M (list token) :=
  match next_token with
  | None => raise (AssertionError "")
  | Some next_token =>
      me ← get_self;
      st ← text_loop next_token emit max_length fuel (initial_state me);
      mret (removelast (generated_tokens st))
  end.

(** The default [emit], [lambda x, _, __: x]. *)
Definition emit_default (x : token) (_ _ : buffer) : token := x.

Definition generate_text (fuel : nat) (max_length : option Z) : M (list token) :=
  _text_generator fuel (Some _generate_next_token) emit_default max_length.

End Generator.

(** ** The values the table stores, in binary64 *)















(** ** A weighted choice driven by an explicit random source *)

(** Modelled from the spec: [utils.weighted_choice], "given a mapping of
    outcome to non-negative weight (weights need not sum to 1), draw one
    outcome with probability proportional to its weight"; "deterministic
    given a fixed random source". The outcome is the first one whose
    cumulated weight exceeds the threshold. *)
Fixpoint pick (threshold acc : Q) (items : list (token * Q)) : option token :=
  match items with
  | [] => None
  | (item, weight) :: rest =>
      if Qlt_le_dec threshold (acc + weight) then Some item
      else pick threshold (acc + weight) rest
  end.

Definition sum_weights (items : list (token * Q)) : Q :=
  foldr (λ iw acc, (iw.2 + acc)%Q) 0%Q items.

(** The random source is the list of the numbers to come; the draw is the
    fractional part of the number, in the unit interval [0, 1); an
    exhausted source draws 0. Weights whose sum is not positive select
    nothing. *)
Definition weighted_choice_list (items : list (token * Q)) (source : list Q)
  : option token * list Q :=
  let q := hd 0%Q source in
  let u := (q - inject_Z (Qfloor q))%Q in
  (if Qle_bool (sum_weights items) 0 then None
   else pick (u * sum_weights items) 0 items,
   tl source).

(** ** Example models *)

(** [Markov([["a", "b", "c"]], order=1)]. *)
Definition corpus_abc : list (list token) := [["a"; "b"; "c"]].
Definition model_abc : Markov (list token) :=
  mkMarkov 1 "^" "$" id None (_compute_transitions id "^" "$" 1 corpus_abc).

(** [Markov([["a", "b", "a", "c"], ["b", "b"]], order=2)]. *)
Definition corpus_abac : list (list token) := [["a"; "b"; "a"; "c"]; ["b"; "b"]].
Definition model_abac : Markov (list token) :=
  mkMarkov 2 "^" "$" id None (_compute_transitions id "^" "$" 2 corpus_abac).

(** [Markov([], order=1)]: the empty corpus is accepted. *)
Definition model_empty : Markov (list token) :=
  mkMarkov 1 "^" "$" id None (_compute_transitions id "^" "$" 1 []).


(** An emit that forgets the token. *)
Definition emit_x (_ : token) (_ _ : buffer) : token := "x".

(** ** Notions the statements are phrased with *)

(** The increments the counting loops perform, in the order they perform
    them: one pair (suffix, emission) for every suffix of the buffer, for
    every emission of an entry. *)
Fixpoint emission_trace (buf : buffer) (emissions : list token) : list (key * token) :=
  match emissions with
  | [] => []
  | e :: rest =>
      ((λ suffix, (suffix, e)) <$> get_suffixes buf)
        ++ emission_trace (buffer_append e buf) rest
  end.

Definition entry_trace {E} (tokenize : E → list token) (start_symbol end_symbol : token)
    (order : Z) (corpus_entry : E) : list (key * token) :=
  emission_trace (prefilled_buffer start_symbol order)
    (tokenize corpus_entry ++ [end_symbol]).

Definition corpus_trace {E} (tokenize : E → list token) (start_symbol end_symbol : token)
    (order : Z) (corpus : list E) : list (key * token) :=
  corpus ≫= entry_trace tokenize start_symbol end_symbol order.

Definition apply_trace (tr : counts) (trace : list (key * token)) : counts :=
  foldl (λ tr p, increment tr p.1 p.2) tr trace.

(** The sum of all the counts of a table: the number of increments it has
    received. *)
Definition total_count (tr : counts) : Z :=
  map_fold (λ _ inner acc, sum_values inner + acc) 0 tr.


(** Every key of the table has a recorded occurrence, and every recorded
    count is positive. *)
Definition positive_counts (tr : counts) : Prop :=
  ∀ k m, tr !! k = Some m → m ≠ ∅ ∧ ∀ t c, m !! t = Some c → 0 < c.

(** The token [t] is recorded under the key [k]. *)
Definition counted {V} (tr : gmap (list string) (gmap string V)) (k : key) (t : token) : Prop :=
  is_Some (default ∅ (tr !! k) !! t).

(** The contract of the weighted choice: an outcome it returns is an
    outcome of the mapping with a positive weight. *)
Definition wc_positive {R} (wc : list (token * Q) → R → option token * R) : Prop :=
  ∀ items r t r', wc items r = (Some t, r') → ∃ weight, (t, weight) ∈ items ∧ (0 < weight)%Q.

(** The contract of the weighted choice: it draws from every mapping that
    is not empty and whose weights are positive. *)
Definition wc_total {R} (wc : list (token * Q) → R → option token * R) : Prop :=
  ∀ items r, items ≠ [] → (∀ t weight, (t, weight) ∈ items → (0 < weight)%Q) →
    ∃ t r', wc items r = (Some t, r').

(** A history buffer of the generator that training has seen: it has the
    length of the order and, unless it ends with the end sentinel, it is a
    key that was incremented. *)
Definition trained_buffer (trace : list (key * token)) (o : Z) (e : token)
    (buf : buffer) : Prop :=
  length buf = Z.to_nat o ∧ ∀ x, last buf = Some x → x ≠ e → ∃ t, (buf, t) ∈ trace.

(** The count recorded for the token [t] under the key [k]; 0 when there
    is none, as [tr[k][t]] reads on the nested [defaultdict]. *)
Definition count_of (tr : counts) (k : key) (t : token) : Z :=
  default 0 (default ∅ (tr !! k) !! t).

(** The history buffer after the tokens have been appended to it in turn. *)
Definition slide (buf : buffer) (tokens : list token) : buffer :=
  foldl (λ b t, buffer_append t b) buf tokens.

(** ** The trainer: counting *)

Lemma sum_values_empty : sum_values ∅ = 0.
Proof. apply map_fold_empty. Qed.

Lemma sum_values_insert_fresh (m : gmap string Z) t c :
  m !! t = None → sum_values (<[t := c]> m) = c + sum_values m.
Proof.
  intros Hm. unfold sum_values.
  rewrite map_fold_insert_L; [done | intros; lia | done].
Qed.

Lemma sum_values_insert (m : gmap string Z) t c :
  sum_values (<[t := c]> m) = c + sum_values m - default 0 (m !! t).
Proof.
  destruct (m !! t) as [c0|] eqn:Hm; simpl.
  - rewrite <- (insert_delete_eq m t c).
    rewrite <- (insert_id m t c0 Hm) at 2.
    rewrite <- (insert_delete_eq m t c0).
    rewrite !sum_values_insert_fresh by apply lookup_delete_eq. lia.
  - rewrite sum_values_insert_fresh by done. lia.
Qed.

Lemma total_count_empty : total_count ∅ = 0.
Proof. apply map_fold_empty. Qed.

Lemma total_count_insert_fresh (tr : counts) k m :
  tr !! k = None → total_count (<[k := m]> tr) = sum_values m + total_count tr.
Proof.
  intros Hk. unfold total_count.
  rewrite map_fold_insert_L; [done | intros; lia | done].
Qed.

Lemma total_count_insert (tr : counts) k m :
  total_count (<[k := m]> tr)
  = sum_values m + total_count tr - sum_values (default ∅ (tr !! k)).
Proof.
  destruct (tr !! k) as [m0|] eqn:Hk; simpl.
  - rewrite <- (insert_delete_eq tr k m).
    rewrite <- (insert_id tr k m0 Hk) at 2.
    rewrite <- (insert_delete_eq tr k m0).
    rewrite !total_count_insert_fresh by apply lookup_delete_eq. lia.
  - rewrite total_count_insert_fresh by done. rewrite sum_values_empty. lia.
Qed.

Lemma total_count_increment tr k t :
  total_count (increment tr k t) = total_count tr + 1.
Proof.
  unfold increment. cbv zeta. rewrite total_count_insert, sum_values_insert. lia.
Qed.

Lemma total_count_apply_trace trace tr :
  total_count (apply_trace tr trace) = total_count tr + Z.of_nat (length trace).
Proof.
  revert tr. induction trace as [|p trace IH]; intros tr; simpl.
  - lia.
  - unfold apply_trace in *. simpl. rewrite IH, total_count_increment. lia.
Qed.

(** The counting loops perform exactly the increments of the trace. *)
Lemma count_emissions_trace emissions tr buf :
  (foldl count_emission (tr, buf) emissions).1
  = apply_trace tr (emission_trace buf emissions).
Proof.
  revert tr buf. induction emissions as [|e rest IH]; intros tr buf; simpl.
  - done.
  - unfold count_emission at 2. simpl. rewrite IH.
    unfold apply_trace. rewrite foldl_app, foldl_fmap. done.
Qed.

Lemma count_entry_trace {E} (tok : E → list token) s e o tr entry :
  count_entry tok s e o tr entry = apply_trace tr (entry_trace tok s e o entry).
Proof. apply count_emissions_trace. Qed.

Lemma count_corpus_from_trace {E} (tok : E → list token) s e o corpus tr :
  foldl (count_entry tok s e o) tr corpus
  = apply_trace tr (corpus_trace tok s e o corpus).
Proof.
  revert tr. induction corpus as [|entry corpus IH]; intros tr; simpl; [done|].
  rewrite IH, count_entry_trace. unfold apply_trace. by rewrite foldl_app.
Qed.

Lemma count_corpus_trace {E} (tok : E → list token) s e o corpus :
  count_corpus tok s e o corpus = apply_trace ∅ (corpus_trace tok s e o corpus).
Proof. apply count_corpus_from_trace. Qed.

(** ** The suffixes and the buffer *)

Lemma get_suffixes_cons x (buf : buffer) :
  get_suffixes (x :: buf) = (x :: buf) :: get_suffixes buf.
Proof.
  unfold get_suffixes. simpl. f_equal.
  rewrite <- (fmap_S_seq 0), <- list_fmap_compose. done.
Qed.

Lemma get_suffixes_lengths (buf : buffer) :
  length <$> get_suffixes buf = reverse (seq 1 (length buf)).
Proof.
  induction buf as [|x buf IH]; [done|].
  rewrite get_suffixes_cons. cbn [fmap list_fmap length]. rewrite IH.
  rewrite seq_S, reverse_app. done.
Qed.

Lemma get_suffixes_length (buf : buffer) :
  length (get_suffixes buf) = length buf.
Proof. unfold get_suffixes. by rewrite length_fmap, length_seq. Qed.

Lemma length_buffer_append x (buf : buffer) :
  length (buffer_append x buf) = length buf.
Proof. destruct buf; simpl; [done|]. rewrite length_app. simpl. lia. Qed.

Lemma length_prefilled_buffer s (o : Z) :
  length (prefilled_buffer s o) = Z.to_nat o.
Proof. apply length_replicate. Qed.

Lemma emission_trace_length emissions (buf : buffer) :
  length (emission_trace buf emissions) = (length emissions * length buf)%nat.
Proof.
  revert buf. induction emissions as [|e rest IH]; intros buf; simpl; [done|].
  rewrite length_app, length_fmap, get_suffixes_length, IH, length_buffer_append.
  done.
Qed.


(** ** The table after a sequence of increments *)

Lemma lookup_increment_eq tr k t :
  increment tr k t !! k
  = Some (<[t := default 0 (default ∅ (tr !! k) !! t) + 1]> (default ∅ (tr !! k))).
Proof. unfold increment. by rewrite lookup_insert_eq. Qed.

Lemma lookup_increment_ne tr k t k' :
  k ≠ k' → increment tr k t !! k' = tr !! k'.
Proof. intros Hne. unfold increment. by rewrite lookup_insert_ne. Qed.

Lemma dom_increment tr k t : dom (increment tr k t) = {[k]} ∪ dom tr.
Proof. unfold increment. by rewrite dom_insert_L. Qed.

Lemma dom_apply_trace trace tr :
  dom (apply_trace tr trace) = dom tr ∪ list_to_set trace.*1.
Proof.
  revert tr. induction trace as [|[k t] trace IH]; intros tr.
  - simpl. by rewrite (right_id_L ∅ (∪)).
  - unfold apply_trace in *. simpl. rewrite IH, dom_increment.
    by rewrite (comm_L (∪) {[k]}), (assoc_L (∪)).
Qed.

Lemma positive_counts_increment tr k t :
  positive_counts tr → positive_counts (increment tr k t).
Proof.
  intros Hpos k' m Hm. destruct (decide (k = k')) as [<-|Hne].
  - rewrite lookup_increment_eq in Hm. injection Hm as <-. split.
    + apply insert_non_empty.
    + intros t' c Hc. destruct (decide (t = t')) as [<-|Hnet].
      * rewrite lookup_insert_eq in Hc. injection Hc as <-.
        destruct (tr !! k) as [m0|] eqn:Hk; simpl.
        -- destruct (m0 !! t) as [c0|] eqn:Ht; simpl; [|lia].
           pose proof (proj2 (Hpos k m0 Hk) t c0 Ht). lia.
        -- rewrite lookup_empty. simpl. lia.
      * rewrite lookup_insert_ne in Hc by done.
        destruct (tr !! k) as [m0|] eqn:Hk; simpl in Hc.
        -- by apply (proj2 (Hpos k m0 Hk) t' c).
        -- by rewrite lookup_empty in Hc.
  - rewrite lookup_increment_ne in Hm by done. by apply (Hpos k' m).
Qed.

Lemma positive_counts_apply_trace trace tr :
  positive_counts tr → positive_counts (apply_trace tr trace).
Proof.
  revert tr. induction trace as [|[k t] trace IH]; intros tr Hpos; [done|].
  apply IH. by apply positive_counts_increment.
Qed.

Lemma positive_counts_empty : positive_counts ∅.
Proof. intros k m Hm. by rewrite lookup_empty in Hm. Qed.

Lemma counted_increment tr k t k' t' :
  counted (increment tr k t) k' t' ↔ counted tr k' t' ∨ (k' = k ∧ t' = t).
Proof.
  unfold counted. destruct (decide (k = k')) as [<-|Hne].
  - rewrite lookup_increment_eq. simpl.
    destruct (decide (t = t')) as [<-|Hnet].
    + rewrite lookup_insert_eq. split; [intros _; by right | intros _; eauto].
    + rewrite lookup_insert_ne by done. split; [by left|].
      intros [H|[_ ->]]; done.
  - rewrite lookup_increment_ne by done. split; [by left|].
    intros [H|[-> _]]; done.
Qed.

Lemma counted_apply_trace trace tr k t :
  counted (apply_trace tr trace) k t ↔ counted tr k t ∨ (k, t) ∈ trace.
Proof.
  revert tr. induction trace as [|[k0 t0] trace IH]; intros tr.
  - simpl. rewrite elem_of_nil. tauto.
  - unfold apply_trace in *. simpl. rewrite IH, counted_increment, elem_of_cons.
    split; [intros [[H|[-> ->]]|H] | intros [H|[[= -> ->]|H]]]; tauto.
Qed.

Lemma sum_values_nonneg (m : gmap string Z) :
  (∀ t c, m !! t = Some c → 0 < c) → 0 <= sum_values m.
Proof.
  induction m as [|t c m Hfresh IH] using map_ind; intros Hpos.
  - by rewrite sum_values_empty.
  - rewrite sum_values_insert_fresh by done.
    pose proof (Hpos t c (lookup_insert_eq _ _ _)).
    assert (0 <= sum_values m); [|lia].
    apply IH. intros t' c' Hc'. apply (Hpos t' c').
    rewrite lookup_insert_ne; [done|]. intros ->. congruence.
Qed.

Lemma sum_values_pos (m : gmap string Z) :
  m ≠ ∅ → (∀ t c, m !! t = Some c → 0 < c) → 0 < sum_values m.
Proof.
  destruct m as [|t c m Hfresh _] using map_ind; intros Hne Hpos; [done|].
  rewrite sum_values_insert_fresh by done.
  pose proof (Hpos t c (lookup_insert_eq _ _ _)).
  assert (0 <= sum_values m); [|lia].
  apply sum_values_nonneg. intros t' c' Hc'. apply (Hpos t' c').
  rewrite lookup_insert_ne; [done|]. intros ->. congruence.
Qed.

(** ** Normalization *)




Lemma dom_compute_relative_probs (tr : counts) :
  dom (_compute_relative_probs tr) = dom tr.
Proof. apply dom_fmap_L. Qed.

Lemma dom_relative_probs (m : gmap string Z) : dom (relative_probs m) = dom m.
Proof. unfold relative_probs. case_bool_decide; apply dom_fmap_L. Qed.

Lemma positive_counts_corpus {E} (tok : E → list token) s e o corpus :
  positive_counts (count_corpus tok s e o corpus).
Proof.
  rewrite count_corpus_trace.
  apply positive_counts_apply_trace, positive_counts_empty.
Qed.

Lemma counted_corpus_trace {E} (tok : E → list token) s e o corpus k t :
  (k, t) ∈ corpus_trace tok s e o corpus
  ↔ counted (count_corpus tok s e o corpus) k t.
Proof.
  rewrite count_corpus_trace, counted_apply_trace. unfold counted.
  rewrite lookup_empty. simpl. rewrite lookup_empty.
  split; [by right|]. intros [H|H]; [by destruct H|done].
Qed.





Lemma counted_transitions_trace {E} (tok : E → list token) s e o corpus k t :
  (k, t) ∈ corpus_trace tok s e o corpus
  ↔ counted (_compute_transitions tok s e o corpus) k t.
Proof.
  unfold _compute_transitions, _compute_relative_probs, counted.
  rewrite lookup_fmap.
  rewrite (counted_corpus_trace tok s e o corpus k t). unfold counted.
  destruct (count_corpus tok s e o corpus !! k) as [cnt|]; simpl.
  - by rewrite <- !elem_of_dom, dom_relative_probs.
  - cbn. by rewrite !lookup_empty.
Qed.

Lemma dom_transitions_trace {E} (tok : E → list token) s e o corpus (k : key) :
  k ∈ dom (_compute_transitions tok s e o corpus)
  ↔ ∃ t, (k, t) ∈ corpus_trace tok s e o corpus.
Proof.
  unfold _compute_transitions.
  rewrite dom_compute_relative_probs, count_corpus_trace, dom_apply_trace.
  rewrite dom_empty_L, (left_id_L ∅ (∪)), elem_of_list_to_set, list_elem_of_fmap.
  split.
  - intros [[k' t] [-> Hin]]. by exists t.
  - intros [t Hin]. by exists (k, t).
Qed.

(** C6. After training, the history keys of the transition table are
    exactly the buffer suffixes that received an increment while counting:
    normalization keeps the key set of the counts, and that key set is the
    set of the suffixes incremented; training on an empty corpus yields an
    empty transition table. *)
Theorem keys_exactly_incremented {E} (tok : E → list token) (s e : token) (o : Z)
    (corpus : list E) :
  dom (_compute_transitions tok s e o corpus)
    = dom (count_corpus tok s e o corpus)
  ∧ (∀ k : key,
       k ∈ dom (_compute_transitions tok s e o corpus)
       ↔ ∃ t, (k, t) ∈ corpus_trace tok s e o corpus)
  ∧ (∀ k t,
       (k, t) ∈ corpus_trace tok s e o corpus
       ↔ counted (_compute_transitions tok s e o corpus) k t)
  ∧ _compute_transitions tok s e o [] = ∅.
Proof.
  split; [apply dom_compute_relative_probs|]. split; [|split].
  - apply dom_transitions_trace.
  - apply counted_transitions_trace.
  - unfold _compute_transitions, count_corpus, _compute_relative_probs. simpl.
    apply fmap_empty.
Qed.

(** ** The constructor *)

Lemma __init___cases {E} (corpus : option (list E)) (o : Z) (tok : E → list token) :
  (o < 1 ∧ __init__ corpus o tok = Raise (AssertionError "Invalid Markov chain order"))
  ∨ (20 < o ∧ __init__ corpus o tok = Raise (AssertionError "Markov chain order too high"))
  ∨ (1 <= o <= 20 ∧ corpus = None
     ∧ __init__ corpus o tok = Raise (AssertionError "Corpus is empty"))
  ∨ (1 <= o <= 20 ∧ ∃ c, corpus = Some c
     ∧ __init__ corpus o tok
       = Ret (mkMarkov o "^" "$" tok None (_compute_transitions tok "^" "$" o c))).
Proof.
  unfold __init__. repeat case_bool_decide.
  - destruct corpus as [c|].
    + right; right; right. split; [lia|]. by exists c.
    + right; right; left. split; [lia|done].
  - right; left. split; [lia|done].
  - left. split; [lia|done].
Qed.

(** C5. Construction fails, with an assertion error, exactly when the
    order is below 1, above 20, or the corpus is [None]; otherwise it
    returns a model. Orders 0 and 21 fail, orders 1 and 20 succeed on any
    corpus that is not [None], the empty corpus included. *)
Theorem construction_fails_exactly {E} (corpus : option (list E)) (o : Z)
    (tok : E → list token) (c : list E) :
  ((∃ msg, __init__ corpus o tok = Raise (AssertionError msg))
     ↔ o < 1 ∨ 20 < o ∨ corpus = None)
  ∧ ((∃ me, __init__ corpus o tok = Ret me) ↔ 1 <= o <= 20 ∧ corpus ≠ None)
  ∧ __init__ (Some c) 0 tok = Raise (AssertionError "Invalid Markov chain order")
  ∧ __init__ (Some c) 21 tok = Raise (AssertionError "Markov chain order too high")
  ∧ (∃ me, __init__ (Some c) 1 tok = Ret me ∧ order me = 1)
  ∧ (∃ me, __init__ (Some c) 20 tok = Ret me ∧ order me = 20)
  ∧ (∃ me, __init__ (Some []) 1 tok = Ret me ∧ transitions me = ∅).
Proof.
  destruct (__init___cases corpus o tok)
    as [[Ho ->]|[[Ho ->]|[(Ho & -> & ->)|(Ho & c' & -> & ->)]]].
  all: split; [|split].
  all: try (split; [intros _ | intros _; eexists; reflexivity]).
  all: try (split; [intros [? [=]] | ]).
  all: try (left; lia).
  all: try (right; left; lia).
  all: try (right; right; reflexivity).
  all: try (intros [? ?]; first [lia | congruence]).
  all: try (intros [?|[?|?]]; first [lia | congruence]).
  all: try (split; [lia | congruence]).
  all: repeat split; try done; eexists; (split; [reflexivity|]); try done.
  all: apply fmap_empty.
Qed.

(** ** The keys that follow one another in training *)

Lemma full_suffix (buf s : buffer) :
  s ∈ get_suffixes buf → length s = length buf → s = buf.
Proof.
  unfold get_suffixes. intros [i [-> Hi]]%list_elem_of_fmap Hlen.
  rewrite length_drop in Hlen. apply elem_of_seq in Hi.
  assert (i = 0%nat) as -> by lia. done.
Qed.

Lemma buffer_in_suffixes (buf : buffer) : buf ≠ [] → buf ∈ get_suffixes buf.
Proof.
  destruct buf as [|x buf]; [done|]. intros _.
  rewrite get_suffixes_cons. apply list_elem_of_here.
Qed.

Lemma buffer_append_nonempty x (buf : buffer) : buf ≠ [] → buffer_append x buf ≠ [].
Proof.
  intros Hne Happ. apply Hne, length_zero_iff_nil.
  by rewrite <- (length_buffer_append x), Happ.
Qed.

Lemma last_buffer_append x (buf : buffer) :
  buf ≠ [] → last (buffer_append x buf) = Some x.
Proof. destruct buf; [done|]. intros _. simpl. apply last_snoc. Qed.

Lemma emission_trace_first (buf : buffer) e rest :
  buf ≠ [] → (buf, e) ∈ emission_trace buf (e :: rest).
Proof.
  intros Hne. simpl. apply elem_of_app. left.
  apply list_elem_of_fmap. exists buf. split; [done|]. by apply buffer_in_suffixes.
Qed.

(** In the trace of one entry, a full-length key followed by a token other
    than the final sentinel is followed by the key slid by that token. *)
Lemma emission_trace_next tokens (e_end : token) (buf b : buffer) t :
  buf ≠ [] →
  (b, t) ∈ emission_trace buf (tokens ++ [e_end]) →
  length b = length buf →
  t ≠ e_end →
  ∃ t', (buffer_append t b, t') ∈ emission_trace buf (tokens ++ [e_end]).
Proof.
  revert buf. induction tokens as [|e tokens IH]; intros buf Hne Hin Hlen Ht.
  - simpl in Hin. rewrite app_nil_r in Hin.
    apply list_elem_of_fmap in Hin as [s [[= -> ->] _]]. done.
  - change ((e :: tokens) ++ [e_end]) with (e :: (tokens ++ [e_end])) in *.
    cbn [emission_trace] in *. apply elem_of_app in Hin as [Hin|Hin].
    + apply list_elem_of_fmap in Hin as [s [[= -> ->] Hs]].
      apply full_suffix in Hs as ->; [|done].
      destruct (tokens ++ [e_end]) as [|e' rest] eqn:Hrest.
      { by destruct tokens. }
      exists e'. apply elem_of_app. right.
      apply emission_trace_first. by apply buffer_append_nonempty.
    + destruct (IH (buffer_append e buf)) as [t' Ht']; try done.
      * by apply buffer_append_nonempty.
      * by rewrite length_buffer_append.
      * exists t'. apply elem_of_app. by right.
Qed.

Lemma corpus_trace_next {E} (tok : E → list token) (s e : token) (o : Z)
    (corpus : list E) (b : buffer) t :
  1 <= o →
  (b, t) ∈ corpus_trace tok s e o corpus →
  length b = Z.to_nat o →
  t ≠ e →
  ∃ t', (buffer_append t b, t') ∈ corpus_trace tok s e o corpus.
Proof.
  intros Ho Hin Hlen Ht. unfold corpus_trace in *.
  apply list_elem_of_bind in Hin as [entry [Hin Hentry]].
  destruct (emission_trace_next (tok entry) e (prefilled_buffer s o) b t)
    as [t' Ht']; try done.
  - intros Hnil. apply (f_equal length) in Hnil.
    rewrite length_prefilled_buffer in Hnil. simpl in Hnil. lia.
  - by rewrite length_prefilled_buffer.
  - exists t'. apply list_elem_of_bind. by exists entry.
Qed.

Lemma corpus_trace_start {E} (tok : E → list token) (s e : token) (o : Z)
    (corpus : list E) :
  1 <= o → corpus ≠ [] →
  ∃ t, (prefilled_buffer s o, t) ∈ corpus_trace tok s e o corpus.
Proof.
  intros Ho Hne. destruct corpus as [|entry corpus]; [done|].
  assert (Hbuf : prefilled_buffer s o ≠ []).
  { intros Hnil. apply (f_equal length) in Hnil.
    rewrite length_prefilled_buffer in Hnil. simpl in Hnil. lia. }
  destruct (tok entry ++ [e]) as [|x rest] eqn:Hx; [by destruct (tok entry)|].
  exists x. unfold corpus_trace. apply list_elem_of_bind. exists entry.
  split; [|apply list_elem_of_here].
  unfold entry_trace. rewrite Hx. by apply emission_trace_first.
Qed.

(** Every stored probability is positive. *)
Lemma transitions_positive {E} (tok : E → list token) s e o corpus k d t p :
  _compute_transitions tok s e o corpus !! k = Some d →
  d !! t = Some p → (0 < p)%Q.
Proof.
  unfold _compute_transitions, _compute_relative_probs.
  rewrite lookup_fmap. intros Hk Hp.
  destruct (count_corpus tok s e o corpus !! k) as [cnt|] eqn:Hcnt; [|done].
  injection Hk as <-.
  destruct (positive_counts_corpus tok s e o corpus k cnt Hcnt) as [Hne Hpos].
  pose proof (sum_values_pos cnt Hne Hpos) as Hsum.
  unfold relative_probs in Hp. rewrite bool_decide_eq_true_2 in Hp by done.
  rewrite lookup_fmap in Hp. destruct (cnt !! t) as [c|] eqn:Hc; [|done].
  injection Hp as <-. pose proof (Hpos t c Hc) as Hcpos.
  unfold Qlt, Qdiv, Qmult, Qinv, inject_Z. simpl.
  destruct (sum_values cnt) as [|q|q] eqn:Hq; try lia. simpl. lia.
Qed.

(** ** The generator: one draw, one iteration *)

Section GeneratorFacts.
Context {E R : Type}.
Variable wc : list (token * Q) → R → option token * R.

Lemma helper_unfold (past_states : buffer) (w : @world E R) :
  _generate_next_token_helper wc past_states w
  = match transitions (self w) !! past_states with
    | Some d =>
        match wc (map_to_list d) (random w) with
        | (Some t, r) => (Ret t, mkWorld (self w) r)
        | (None, r) => (Raise EmptyDistribution, mkWorld (self w) r)
        end
    | None => (Raise (AssertionError "key"), w)
    end.
Proof.
  unfold _generate_next_token_helper, mbind, M_bind, table_contains.
  destruct (transitions (self w) !! past_states) as [d|] eqn:Hk.
  - rewrite bool_decide_eq_true_2 by done.
    unfold table_getitem, choose. rewrite Hk. done.
  - rewrite bool_decide_eq_false_2 by (by intros [? ?]). done.
Qed.

Lemma helper_frame (past_states : buffer) (w : @world E R) :
  self (_generate_next_token_helper wc past_states w).2 = self w.
Proof.
  rewrite helper_unfold.
  destruct (transitions (self w) !! past_states); [|done].
  by destruct (wc _ _) as [[t|] r].
Qed.

Lemma text_loop_S (next_token : buffer → @M E R token) emit ml fuel st w :
  text_loop next_token emit ml (S fuel) st w
  = match last (last_tokens st) with
    | None => (Raise IndexError, w)
    | Some newest =>
        if bool_decide (newest ≠ _end_symbol (self w)) then
          match next_token (last_tokens st) w with
          | (Ret new_token, w') =>
              if cap_reached ml (generated_tokens (record_emission emit new_token st))
              then (Ret (record_emission emit new_token st), w')
              else text_loop next_token emit ml fuel (record_emission emit new_token st) w'
          | (Raise e, w') => (Raise e, w')
          | (OutOfFuel, w') => (OutOfFuel, w')
          end
        else (Ret st, w)
    end.
Proof.
  cbn [text_loop]. unfold mbind, M_bind, get_self.
  destruct (last (last_tokens st)) as [newest|]; [|done].
  case_bool_decide; [|done].
  destruct (next_token (last_tokens st) w) as [[new_token|e|] w']; try done.
  cbv zeta. by destruct (cap_reached _ _).
Qed.

Lemma text_loop_frame emit ml fuel st (w : @world E R) :
  self (text_loop (_generate_next_token wc) emit ml fuel st w).2 = self w.
Proof.
  revert st w. induction fuel as [|fuel IH]; intros st w; [done|].
  rewrite text_loop_S.
  destruct (last (last_tokens st)) as [newest|]; [|done].
  case_bool_decide; [|done].
  pose proof (helper_frame (last_tokens st) w) as Hframe.
  unfold _generate_next_token.
  destruct (_generate_next_token_helper wc (last_tokens st) w)
    as [[new_token|e|] w']; try done.
  destruct (cap_reached _ _); [done|].
  rewrite IH. done.
Qed.

Lemma _text_generator_unfold (next_token : buffer → @M E R token) emit ml fuel w :
  _text_generator fuel (Some next_token) emit ml w
  = match text_loop next_token emit ml fuel (initial_state (self w)) w with
    | (Ret st, w') => (Ret (removelast (generated_tokens st)), w')
    | (Raise e, w') => (Raise e, w')
    | (OutOfFuel, w') => (OutOfFuel, w')
    end.
Proof.
  unfold _text_generator, mbind, M_bind, get_self.
  by destruct (text_loop _ _ _ _ _ _) as [[st|e|] w'].
Qed.

(** The lookup of a missing key in the [defaultdict] does insert it. *)
Lemma table_getitem_inserts (k : key) (w : @world E R) :
  transitions (self w) !! k = None →
  transitions (self (table_getitem k w).2) !! k = Some ∅.
Proof.
  intros Hk. unfold table_getitem. rewrite Hk. simpl. apply lookup_insert_eq.
Qed.

(** C9. A generation call never mutates the model: whatever the fuel, the
    cap and the outcome, the model object of the final world is the one of
    the initial world, hence its order, its sentinels, its tokenizer and
    its whole transition table (key set and stored probabilities) are
    unchanged; only the random source advances. This holds although the
    table is a [defaultdict], whose lookup of a missing key inserts that
    key ([table_getitem_inserts]): the lookup is guarded by the
    membership test. *)
Theorem generate_text_frame (fuel : nat) (max_length : option Z) (w : @world E R) :
  self (generate_text wc fuel max_length w).2 = self w
  ∧ order (self (generate_text wc fuel max_length w).2) = order (self w)
  ∧ _start_symbol (self (generate_text wc fuel max_length w).2) = _start_symbol (self w)
  ∧ _end_symbol (self (generate_text wc fuel max_length w).2) = _end_symbol (self w)
  ∧ tokenize (self (generate_text wc fuel max_length w).2) = tokenize (self w)
  ∧ transitions (self (generate_text wc fuel max_length w).2) = transitions (self w)
  ∧ dom (transitions (self (generate_text wc fuel max_length w).2))
    = dom (transitions (self w)).
Proof.
  assert (Hself : self (generate_text wc fuel max_length w).2 = self w).
  { unfold generate_text. rewrite _text_generator_unfold.
    pose proof (text_loop_frame emit_default max_length fuel
                  (initial_state (self w)) w) as Hloop.
    by destruct (text_loop _ _ _ _ _ _) as [[st|e|] w']. }
  rewrite Hself. repeat split.
Qed.

Lemma text_loop_steps (next_token : buffer → @M E R token) emit ml n c c' fuel :
  nsteps (loop_step next_token emit ml) n c c' →
  text_loop next_token emit ml (n + fuel) c.1 c.2
  = text_loop next_token emit ml fuel c'.1 c'.2.
Proof.
  induction 1 as [c|n c1 c2 c3 Hstep _ IH]; [done|].
  destruct Hstep as [st w newest new_token w' Hlast Hne Hnext Hcap].
  change (S n + fuel)%nat with (S (n + fuel)). rewrite text_loop_S. cbn [fst snd].
  rewrite Hlast, bool_decide_eq_true_2, Hnext, Hcap by done. exact IH.
Qed.

Lemma loop_step_frame emit ml st (w : @world E R) st' w' :
  loop_step (_generate_next_token wc) emit ml (st, w) (st', w') →
  self w' = self w ∧ length (last_tokens st') = length (last_tokens st).
Proof.
  inversion 1 as [st0 w0 newest new_token w0' Hlast Hne Hnext Hcap]; subst.
  split.
  - pose proof (helper_frame (last_tokens st) w) as Hframe.
    unfold _generate_next_token in Hnext. by rewrite Hnext in Hframe.
  - simpl. apply length_buffer_append.
Qed.

Lemma nsteps_frame emit ml n (c c' : loop_state * @world E R) :
  nsteps (loop_step (_generate_next_token wc) emit ml) n c c' →
  self c'.2 = self c.2 ∧ length (last_tokens c'.1) = length (last_tokens c.1).
Proof.
  induction 1 as [c|n [st1 w1] [st2 w2] c3 Hstep _ [IH1 IH2]]; [done|].
  apply loop_step_frame in Hstep as [Hs Hl]. simpl in *. split; congruence.
Qed.

(** C4. At every iteration of the generation loop, the next token is
    obtained by looking up the whole history buffer, whose length is the
    order, as a key of the transition table, and drawing from the mapping
    found; if the key is absent, the draw is an assertion error that leaves
    the world as it is, and the whole generation call ends with that
    error: it returns no sequence. *)
Theorem unknown_key_is_fatal (max_length : option Z) (w0 : @world E R)
    (n fuel : nat) (st : loop_state) (w : @world E R) (newest : token) :
  nsteps (loop_step (_generate_next_token wc) emit_default max_length) n
    (initial_state (self w0), w0) (st, w) →
  last (last_tokens st) = Some newest →
  newest ≠ _end_symbol (self w) →
  length (last_tokens st) = Z.to_nat (order (self w0))
  ∧ _generate_next_token wc (last_tokens st) w
    = match transitions (self w0) !! last_tokens st with
      | Some d =>
          match wc (map_to_list d) (random w) with
          | (Some t, r) => (Ret t, mkWorld (self w) r)
          | (None, r) => (Raise EmptyDistribution, mkWorld (self w) r)
          end
      | None => (Raise (AssertionError "key"), w)
      end
  ∧ (transitions (self w0) !! last_tokens st = None → (n < fuel)%nat →
     generate_text wc fuel max_length w0 = (Raise (AssertionError "key"), w)).
Proof.
  intros Hsteps Hlast Hne.
  destruct (nsteps_frame _ _ _ _ _ Hsteps) as [Hself Hlen]. simpl in Hself, Hlen.
  split; [|split].
  - rewrite Hlen. apply length_prefilled_buffer.
  - unfold _generate_next_token. rewrite helper_unfold, Hself. done.
  - intros Hkey Hfuel. unfold generate_text. rewrite _text_generator_unfold.
    replace fuel with (n + S (fuel - S n))%nat by lia.
    rewrite (text_loop_steps _ _ _ _ _ _ _ Hsteps). simpl fst. simpl snd.
    rewrite text_loop_S, Hlast, bool_decide_eq_true_2 by done.
    unfold _generate_next_token. rewrite helper_unfold, Hself, Hkey. done.
Qed.

(** ** The generator: what the loop returns *)

(** When the loop returns, either it never ran, or the last element of the
    collected output is the token drawn last, and either that token is the
    end sentinel or the cap is reached. *)
Lemma text_loop_result ml fuel st (w : @world E R) st' w' :
  text_loop (_generate_next_token wc) emit_default ml fuel st w = (Ret st', w') →
  (st' = st ∧ last (last_tokens st) = Some (_end_symbol (self w)))
  ∨ ∃ pre d,
      generated_tokens st' = pre ++ [d]
      ∧ last (last_tokens st') = Some d
      ∧ (d = _end_symbol (self w) ∨ cap_reached ml (generated_tokens st') = true).
Proof.
  revert st w. induction fuel as [|fuel IH]; intros st w; [done|].
  rewrite text_loop_S.
  destruct (last (last_tokens st)) as [newest|] eqn:Hlast; [|done].
  case_bool_decide as Hnewest.
  - pose proof (helper_frame (last_tokens st) w) as Hframe.
    unfold _generate_next_token.
    destruct (_generate_next_token_helper wc (last_tokens st) w)
      as [[new_token|e|] w1]; try done.
    simpl in Hframe.
    assert (Hbuf : last_tokens st ≠ []) by (by intros Hnil; rewrite Hnil in Hlast).
    destruct (cap_reached ml (generated_tokens (record_emission _ new_token st)))
      eqn:Hcap.
    + intros [= <- <-]. right. exists (generated_tokens st), new_token.
      split; [done|]. split; [by apply last_buffer_append|]. by right.
    + intros Hloop. apply IH in Hloop as [[-> Hend]|(pre & d & Hgen & Hd & Hstop)].
      * right. exists (generated_tokens st), new_token. split; [done|].
        simpl in Hend. rewrite last_buffer_append in Hend by done.
        split; [by apply last_buffer_append|]. left. congruence.
      * right. exists pre, d. rewrite <- Hframe. done.
  - intros [= <- <-]. left. split; [done|].
    congruence.
Qed.

(** C2. For a trained model and every generation call, the outcome of
    [generate_text] is the outcome of its loop, and when the loop
    completes the call returns the collected sequence with its final
    element removed, whatever ended the loop. The collected sequence is
    not empty, and the removed element is the token drawn last (the newest
    entry of the history buffer): it is the end sentinel when the loop
    ended on its condition, and otherwise the cap [max_length + 1] was
    reached and it is the token generated last. *)
Theorem generate_text_drops_last (corpus : list E) (o : Z) (tok : E → list token)
    (me : Markov E) (fuel : nat) (max_length : option Z) (r : R) :
  __init__ (Some corpus) o tok = Ret me →
  generate_text wc fuel max_length (mkWorld me r)
  = match text_loop (_generate_next_token wc) emit_default max_length fuel
            (initial_state me) (mkWorld me r) with
    | (Ret st, w') => (Ret (removelast (generated_tokens st)), w')
    | (Raise e, w') => (Raise e, w')
    | (OutOfFuel, w') => (OutOfFuel, w')
    end
  ∧ ∀ st w',
      text_loop (_generate_next_token wc) emit_default max_length fuel
        (initial_state me) (mkWorld me r) = (Ret st, w') →
      ∃ dropped,
        generated_tokens st = removelast (generated_tokens st) ++ [dropped]
        ∧ last (last_tokens st) = Some dropped
        ∧ (dropped = "$"
           ∨ ∃ m, max_length = Some m
                  ∧ m + 1 <= Z.of_nat (length (generated_tokens st))).
Proof.
  intros Hinit.
  destruct (__init___cases (Some corpus) o tok)
    as [[_ Hi]|[[_ Hi]|[(_ & _ & Hi)|(Ho & c & [= <-] & Hi)]]];
    rewrite Hi in Hinit; try discriminate Hinit.
  injection Hinit as <-.
  split; [unfold generate_text; by rewrite _text_generator_unfold|].
  intros st w' Hloop.
  apply text_loop_result in Hloop as [[-> Hend]|(pre & d & Hg & Hd & Hstop)].
  - exfalso. simpl in Hend. unfold prefilled_buffer in Hend.
    destruct (Z.to_nat o) as [|k] eqn:Hk; [lia|].
    rewrite replicate_S_end, last_snoc in Hend. done.
  - exists d. rewrite Hg, removelast_last.
    split; [done|]. split; [done|].
    destruct Hstop as [->|Hcap]; [by left|]. right.
    unfold cap_reached in Hcap. destruct max_length as [m|]; [|done].
    exists m. split; [done|]. apply bool_decide_eq_true in Hcap.
    by rewrite Hg in Hcap.
Qed.


Lemma cap_reached_length ml (g g' : list token) :
  length g = length g' → cap_reached ml g = cap_reached ml g'.
Proof. intros Hlen. unfold cap_reached. by rewrite Hlen. Qed.

(** With an emit that transforms the token alone, the loop runs as with the
    default emit, and collects the transformed tokens. *)
Lemma text_loop_pointwise_emit (next_token : buffer → @M E R token)
    (f : token → token) ml fuel st_f st (w : @world E R) :
  last_tokens st_f = last_tokens st →
  generated_tokens st_f = f <$> generated_tokens st →
  match text_loop next_token (λ x _ _, f x) ml fuel st_f w,
        text_loop next_token emit_default ml fuel st w with
  | (Ret a, wa), (Ret b, wb) =>
      wa = wb ∧ last_tokens a = last_tokens b
      ∧ generated_tokens a = f <$> generated_tokens b
  | (Raise e, wa), (Raise e', wb) => e = e' ∧ wa = wb
  | (OutOfFuel, wa), (OutOfFuel, wb) => wa = wb
  | _, _ => False
  end.
Proof.
  revert st_f st w. induction fuel as [|fuel IH]; intros st_f st w Hlt Hg; [done|].
  rewrite !text_loop_S, Hlt.
  destruct (last (last_tokens st)) as [newest|]; [|done].
  case_bool_decide; [|done].
  destruct (next_token (last_tokens st) w) as [[new_token|e|] w1]; try done.
  assert (Hg' : generated_tokens (record_emission (λ x _ _, f x) new_token st_f)
                = f <$> generated_tokens (record_emission emit_default new_token st)).
  { simpl. rewrite Hg, fmap_app. done. }
  rewrite (cap_reached_length ml _
             (generated_tokens (record_emission emit_default new_token st)))
    by (by rewrite Hg', length_fmap).
  destruct (cap_reached ml _).
  - split; [done|]. split; [|done]. simpl. by rewrite Hlt.
  - apply IH; [|done]. simpl. by rewrite Hlt.
Qed.

Lemma removelast_fmap {A B} (f : A → B) (l : list A) :
  removelast (f <$> l) = f <$> removelast l.
Proof.
  induction l as [|x [|y l] IH]; [done..|].
  change (f x :: removelast (f <$> y :: l) = f x :: (f <$> removelast (y :: l))).
  by rewrite IH.
Qed.

(** C3 (as amended). At an iteration of the generation loop that draws a
    token, the element appended to the collected output (and to the
    emission buffer) is the emission [emit(new_token, last_tokens,
    last_emissions)], while the raw token is appended to the history
    buffer. With the default emit the emission is the raw token; with an
    emit that transforms the token alone, by a function [f], the sequence
    returned by [_text_generator] is the image under [f] of the sequence
    returned with the default emit, on the same random source. *)
Theorem collected_output_is_emissions (next_token : buffer → @M E R token)
    (emit : token → buffer → buffer → token) (max_length : option Z)
    (fuel : nat) (st : loop_state) (w w' : @world E R)
    (newest new_token : token) (f : token → token) :
  last (last_tokens st) = Some newest →
  newest ≠ _end_symbol (self w) →
  next_token (last_tokens st) w = (Ret new_token, w') →
  let emission := emit new_token (last_tokens st) (last_emissions st) in
  let st' := {| last_tokens := buffer_append new_token (last_tokens st);
                last_emissions := buffer_append emission (last_emissions st);
                generated_tokens := generated_tokens st ++ [emission] |} in
  text_loop next_token emit max_length (S fuel) st w
  = (if cap_reached max_length (generated_tokens st') then (Ret st', w')
     else text_loop next_token emit max_length fuel st' w')
  ∧ emit_default new_token (last_tokens st) (last_emissions st) = new_token
  ∧ _text_generator fuel (Some next_token) (λ x _ _, f x) max_length w
    = match _text_generator fuel (Some next_token) emit_default max_length w with
      | (Ret text, w1) => (Ret (f <$> text), w1)
      | other => other
      end.
Proof.
  intros Hlast Hne Hnext emission st'. split; [|split; [done|]].
  - rewrite text_loop_S, Hlast, bool_decide_eq_true_2, Hnext by done. done.
  - rewrite !_text_generator_unfold.
    pose proof (text_loop_pointwise_emit next_token f max_length fuel
                  (initial_state (self w)) (initial_state (self w)) w
                  eq_refl eq_refl) as Hsim.
    destruct (text_loop next_token (λ x _ _, f x) _ _ _ _) as [[a|e|] wa];
      destruct (text_loop next_token emit_default _ _ _ _) as [[b|e'|] wb];
      try done.
    + destruct Hsim as (-> & _ & ->). by rewrite removelast_fmap.
    + by destruct Hsim as [-> ->].
    + by rewrite Hsim.
Qed.

(** ** The generator: the cap *)

Lemma helper_not_out_of_fuel (past_states : buffer) (w : @world E R) :
  (_generate_next_token_helper wc past_states w).1 ≠ OutOfFuel.
Proof.
  rewrite helper_unfold. destruct (transitions (self w) !! past_states); [|done].
  by destruct (wc _ _) as [[t|] r].
Qed.

(** With a cap [m], a loop that has collected fewer than [m + 1] elements
    ends within the iterations that are left before [m + 1], and never
    collects more than [m + 1] elements. *)
Lemma text_loop_capped emit (m : Z) fuel st (w : @world E R) :
  Z.of_nat (length (generated_tokens st)) < m + 1
    <= Z.of_nat (length (generated_tokens st)) + Z.of_nat fuel →
  (text_loop (_generate_next_token wc) emit (Some m) fuel st w).1 ≠ OutOfFuel
  ∧ ∀ st', (text_loop (_generate_next_token wc) emit (Some m) fuel st w).1 = Ret st' →
      Z.of_nat (length (generated_tokens st')) <= m + 1.
Proof.
  revert st w. induction fuel as [|fuel IH]; intros st w Hlen; [lia|].
  rewrite text_loop_S.
  destruct (last (last_tokens st)) as [newest|]; [|done].
  case_bool_decide.
  - pose proof (helper_not_out_of_fuel (last_tokens st) w) as Hhelper.
    unfold _generate_next_token.
    destruct (_generate_next_token_helper wc (last_tokens st) w)
      as [[new_token|e|] w1]; try done.
    assert (Hlen' : length (generated_tokens (record_emission emit new_token st))
                    = S (length (generated_tokens st))).
    { simpl. rewrite length_app. simpl. lia. }
    destruct (cap_reached (Some m) (generated_tokens (record_emission emit new_token st)))
      eqn:Hcap.
    + simpl fst. split; [done|]. intros st' [= <-]. rewrite Hlen'. lia.
    + unfold cap_reached in Hcap. apply bool_decide_eq_false in Hcap.
      apply IH. rewrite Hlen' in *. lia.
  - simpl. split; [done|]. intros st' [= <-]. lia.
Qed.

(** ** The generator: the keys it looks up *)

(** A draw from a buffer that training has seen: unless the buffer ends
    with the end sentinel, it is a key of the table, its mapping is not
    empty and has positive weights, and a token drawn from the mapping
    slides the buffer to one that training has seen as well. *)
Lemma draw_trained (tok : E → list token) (o : Z) (corpus : list E)
    (buf : buffer) (newest : token) (r : R) :
  1 <= o →
  wc_positive wc →
  trained_buffer (corpus_trace tok "^" "$" o corpus) o "$" buf →
  last buf = Some newest →
  newest ≠ "$" →
  ∃ d, _compute_transitions tok "^" "$" o corpus !! buf = Some d
       ∧ map_to_list d ≠ []
       ∧ (∀ t p, (t, p) ∈ map_to_list d → (0 < p)%Q)
       ∧ ∀ t r', wc (map_to_list d) r = (Some t, r') →
           trained_buffer (corpus_trace tok "^" "$" o corpus) o "$"
             (buffer_append t buf).
Proof.
  intros Ho Hpos [Hlen Hseen] Hlast Hnewest.
  destruct (Hseen newest Hlast Hnewest) as [t0 Ht0].
  apply counted_transitions_trace in Ht0 as Hcounted.
  unfold counted in Hcounted.
  destruct (_compute_transitions tok "^" "$" o corpus !! buf) as [d|] eqn:Hd;
    [|by destruct Hcounted as [? Hc]; cbn in Hc; rewrite lookup_empty in Hc].
  simpl in Hcounted. destruct Hcounted as [p0 Hp0].
  exists d. split; [done|]. split; [|split].
  - intros Hnil. apply elem_of_map_to_list in Hp0. rewrite Hnil in Hp0.
    by apply elem_of_nil in Hp0.
  - intros t p Hin. apply elem_of_map_to_list in Hin.
    by apply (transitions_positive tok "^" "$" o corpus buf d t p).
  - intros t r' Hwc. apply Hpos in Hwc as [p [Hin _]].
    apply elem_of_map_to_list in Hin.
    assert (Hbuf : buf ≠ []) by (by intros Hnil; rewrite Hnil in Hlast).
    split; [by rewrite length_buffer_append|].
    intros x Hx Hxe. rewrite last_buffer_append in Hx by done. injection Hx as ->.
    apply (corpus_trace_next tok "^" "$" o corpus buf x); try done.
    apply counted_transitions_trace. unfold counted. rewrite Hd. simpl. by exists p.
Qed.

Lemma text_loop_safe (tok : E → list token) (o : Z) (corpus : list E)
    emit ml fuel st (w : @world E R) :
  1 <= o →
  wc_positive wc →
  self w = mkMarkov o "^" "$" tok None (_compute_transitions tok "^" "$" o corpus) →
  trained_buffer (corpus_trace tok "^" "$" o corpus) o "$" (last_tokens st) →
  ∀ e, (text_loop (_generate_next_token wc) emit ml fuel st w).1 = Raise e →
    e = EmptyDistribution ∧ ¬ wc_total wc.
Proof.
  intros Ho Hpos. revert st w.
  induction fuel as [|fuel IH]; intros st w Hself Hbuf e; [done|].
  rewrite text_loop_S.
  destruct (last (last_tokens st)) as [newest|] eqn:Hlast.
  - rewrite Hself. cbn [_end_symbol]. case_bool_decide as Hnewest; [|done].
    destruct (draw_trained tok o corpus (last_tokens st) newest (random w)
                Ho Hpos Hbuf Hlast Hnewest) as (d & Hd & Hne & Hdpos & Hnext).
    unfold _generate_next_token. rewrite helper_unfold, Hself.
    cbn [transitions]. rewrite Hd.
    destruct (wc (map_to_list d) (random w)) as [[t|] r'] eqn:Hwc.
    + destruct (cap_reached ml (generated_tokens (record_emission emit t st)));
        [done|].
      apply IH; [done|]. by apply (Hnext t r').
    + simpl. intros [= <-]. split; [done|]. intros Htot.
      destruct (Htot (map_to_list d) (random w) Hne Hdpos) as (t & r'' & Hsome).
      congruence.
  - apply last_None in Hlast. destruct Hbuf as [Hlen _].
    rewrite Hlast in Hlen. simpl in Hlen. lia.
Qed.

Lemma initial_buffer_trained (tok : E → list token) (o : Z) (corpus : list E) :
  1 <= o → corpus ≠ [] →
  trained_buffer (corpus_trace tok "^" "$" o corpus) o "$" (prefilled_buffer "^" o).
Proof.
  intros Ho Hne. split; [apply length_prefilled_buffer|].
  intros _ _ _. by apply corpus_trace_start.
Qed.

Lemma nsteps_trained (tok : E → list token) (o : Z) (corpus : list E)
    emit ml n (c c' : loop_state * @world E R) :
  1 <= o →
  wc_positive wc →
  self c.2 = mkMarkov o "^" "$" tok None (_compute_transitions tok "^" "$" o corpus) →
  trained_buffer (corpus_trace tok "^" "$" o corpus) o "$" (last_tokens c.1) →
  nsteps (loop_step (_generate_next_token wc) emit ml) n c c' →
  trained_buffer (corpus_trace tok "^" "$" o corpus) o "$" (last_tokens c'.1).
Proof.
  intros Ho Hpos Hself Hbuf Hsteps.
  induction Hsteps as [c|n c1 c2 c3 Hstep _ IH]; [done|].
  pose proof Hstep as Hframe.
  destruct Hstep as [st w newest new_token w' Hlast Hne Hnext Hcap].
  apply loop_step_frame in Hframe as [Hself' _]. simpl in Hself, Hbuf.
  apply IH; simpl; [congruence|].
  rewrite Hself in Hne. simpl in Hne.
  destruct (draw_trained tok o corpus (last_tokens st) newest (random w)
              Ho Hpos Hbuf Hlast Hne) as (d & Hd & _ & _ & Hslide).
  unfold _generate_next_token in Hnext. rewrite helper_unfold, Hself in Hnext.
  cbn [transitions] in Hnext. rewrite Hd in Hnext.
  destruct (wc (map_to_list d) (random w)) as [[t|] r'] eqn:Hwc; [|done].
  injection Hnext as <- <-. by apply (Hslide t r').
Qed.

Lemma length_removelast_pred {A} (l : list A) :
  length (removelast l) = pred (length l).
Proof.
  induction l as [|x [|y l] IH]; [done..|].
  change (S (length (removelast (y :: l))) = S (length l)).
  rewrite IH. done.
Qed.

Lemma generate_text_capped (m : Z) (fuel : nat) (w : @world E R) :
  0 <= m → (Z.to_nat m + 1 <= fuel)%nat →
  (generate_text wc fuel (Some m) w).1 ≠ OutOfFuel
  ∧ ∀ text, (generate_text wc fuel (Some m) w).1 = Ret text →
      Z.of_nat (length text) <= m.
Proof.
  intros Hm Hfuel. unfold generate_text. rewrite _text_generator_unfold.
  destruct (text_loop_capped emit_default m fuel (initial_state (self w)) w)
    as [Hfin Hlen]; [simpl; lia|].
  destruct (text_loop _ _ _ _ _ _) as [[st|e|] w']; simpl in *; [|done..].
  split; [done|]. intros text [= <-]. rewrite length_removelast_pred.
  pose proof (Hlen st eq_refl). lia.
Qed.

Lemma generate_text_safe (corpus : list E) (o : Z) (tok : E → list token)
    (me : Markov E) (fuel : nat) (ml : option Z) (r : R) :
  __init__ (Some corpus) o tok = Ret me → corpus ≠ [] → wc_positive wc →
  ∀ e, (generate_text wc fuel ml (mkWorld me r)).1 = Raise e →
    e = EmptyDistribution ∧ ¬ wc_total wc.
Proof.
  intros Hinit Hne Hpos e.
  destruct (__init___cases (Some corpus) o tok)
    as [[_ Hi]|[[_ Hi]|[(_ & _ & Hi)|(Ho & c & [= <-] & Hi)]]];
    rewrite Hi in Hinit; try discriminate Hinit.
  injection Hinit as <-.
  unfold generate_text. rewrite _text_generator_unfold.
  pose proof (text_loop_safe tok o corpus emit_default ml fuel
                (initial_state (mkMarkov o "^" "$" tok None
                                  (_compute_transitions tok "^" "$" o corpus)))
                (mkWorld (mkMarkov o "^" "$" tok None
                            (_compute_transitions tok "^" "$" o corpus)) r)
                (proj1 Ho) Hpos eq_refl
                (initial_buffer_trained tok o corpus (proj1 Ho) Hne) e) as Hsafe.
  cbn [self] in *.
  destruct (text_loop _ _ _ _ _ _) as [[st|e'|] w']; simpl in *;
    [done| |done].
  intros [= <-]. by apply Hsafe.
Qed.

(** C8 (as amended). With a cap [max_length = m ≥ 0], for every model, the
    generation loop executes at most [m + 1] iterations, so the call
    terminates, and a sequence it returns has at most [m] elements. For a
    model trained on a corpus that is not empty, and a weighted choice that
    draws a positive-weight outcome from every such mapping, the call
    returns a sequence, of at most [m] elements; with [max_length = 0] it
    is the empty sequence. *)
Theorem capped_generation_terminates (m : Z) (fuel : nat) :
  0 <= m → (Z.to_nat m + 1 <= fuel)%nat →
  (∀ w : @world E R,
     (generate_text wc fuel (Some m) w).1 ≠ OutOfFuel
     ∧ ∀ text, (generate_text wc fuel (Some m) w).1 = Ret text →
         Z.of_nat (length text) <= m)
  ∧ (∀ (corpus : list E) (o : Z) (tok : E → list token) (me : Markov E) (r : R),
       __init__ (Some corpus) o tok = Ret me → corpus ≠ [] →
       wc_positive wc → wc_total wc →
       ∃ text w', generate_text wc fuel (Some m) (mkWorld me r) = (Ret text, w')
                  ∧ Z.of_nat (length text) <= m
                  ∧ (m = 0 → text = [])).
Proof.
  intros Hm Hfuel. split; [intros w; by apply generate_text_capped|].
  intros corpus o tok me r Hinit Hne Hpos Htot.
  destruct (generate_text_capped m fuel (mkWorld me r) Hm Hfuel) as [Hfin Hlen].
  pose proof (generate_text_safe corpus o tok me fuel (Some m) r Hinit Hne Hpos)
    as Hsafe.
  destruct (generate_text wc fuel (Some m) (mkWorld me r)) as [[text|e|] w'];
    simpl in *; [|by destruct (Hsafe e eq_refl)|done].
  exists text, w'. pose proof (Hlen text eq_refl) as Hle.
  split; [done|]. split; [done|]. intros ->.
  apply length_zero_iff_nil. lia.
Qed.

(** C10. For a model trained on a corpus with at least one entry, and a
    weighted choice that only returns outcomes with a positive weight, the
    key-membership assertion never fails during [generate_text]: the call
    never ends with an assertion error, and every history buffer the loop
    looks up (the all-start-sentinel buffer first) has the length of the
    order and is a key of the transition table. *)
Theorem key_assertion_unreachable (corpus : list E) (o : Z) (tok : E → list token)
    (me : Markov E) (fuel : nat) (max_length : option Z) (r : R) :
  __init__ (Some corpus) o tok = Ret me →
  corpus ≠ [] →
  wc_positive wc →
  (∀ msg, (generate_text wc fuel max_length (mkWorld me r)).1
          ≠ Raise (AssertionError msg))
  ∧ prefilled_buffer (_start_symbol me) (order me) ∈ dom (transitions me)
  ∧ ∀ n st w newest,
      nsteps (loop_step (_generate_next_token wc) emit_default max_length) n
        (initial_state me, mkWorld me r) (st, w) →
      last (last_tokens st) = Some newest →
      newest ≠ _end_symbol me →
      length (last_tokens st) = Z.to_nat (order me)
      ∧ last_tokens st ∈ dom (transitions (self w))
      ∧ ∀ msg, (_generate_next_token wc (last_tokens st) w).1
               ≠ Raise (AssertionError msg).
Proof.
  intros Hinit Hne Hpos. split; [|split].
  - intros msg Hmsg.
    by destruct (generate_text_safe corpus o tok me fuel max_length r
                   Hinit Hne Hpos _ Hmsg).
  - destruct (__init___cases (Some corpus) o tok)
      as [[_ Hi]|[[_ Hi]|[(_ & _ & Hi)|(Ho & c & [= <-] & Hi)]]];
      rewrite Hi in Hinit; try discriminate Hinit.
    injection Hinit as <-. cbn [_start_symbol order transitions].
    apply dom_transitions_trace. apply corpus_trace_start; [lia|done].
  - intros n st w newest Hsteps Hlast Hnewest.
    destruct (__init___cases (Some corpus) o tok)
      as [[_ Hi]|[[_ Hi]|[(_ & _ & Hi)|(Ho & c & [= <-] & Hi)]]];
      rewrite Hi in Hinit; try discriminate Hinit.
    injection Hinit as <-.
    destruct (nsteps_frame _ _ _ _ _ Hsteps) as [Hself _]. simpl in Hself.
    assert (Hbuf : trained_buffer (corpus_trace tok "^" "$" o corpus) o "$"
                     (last_tokens (st, w).1)).
    { apply (λ H1 H2, nsteps_trained tok o corpus emit_default max_length n _ _
                        (proj1 Ho) Hpos H1 H2 Hsteps); [done|].
      apply (initial_buffer_trained tok o corpus (proj1 Ho) Hne). }
    simpl in Hbuf, Hnewest.
    destruct (draw_trained tok o corpus (last_tokens st) newest (random w)
                (proj1 Ho) Hpos Hbuf Hlast Hnewest) as (d & Hd & _).
    split; [apply Hbuf|]. rewrite Hself. cbn [transitions]. split.
    + apply elem_of_dom. by exists d.
    + intros msg. unfold _generate_next_token.
      rewrite helper_unfold, Hself. cbn [transitions]. rewrite Hd.
      by destruct (wc _ _) as [[t|] r'].
Qed.

End GeneratorFacts.

(** ** The weighted choice driven by a list of draws *)

Lemma pick_positive (threshold acc : Q) (items : list (token * Q)) t :
  (acc <= threshold)%Q →
  pick threshold acc items = Some t →
  ∃ weight, (t, weight) ∈ items ∧ (0 < weight)%Q.
Proof.
  revert acc. induction items as [|[item weight] rest IH]; intros acc Hacc; [done|].
  simpl. destruct (Qlt_le_dec threshold (acc + weight)) as [Hlt|Hle].
  - intros [= <-]. exists weight. split; [apply list_elem_of_here|]. lra.
  - intros Hpick. destruct (IH _ Hle Hpick) as (weight' & Hin & Hpos).
    exists weight'. split; [by apply list_elem_of_further|done].
Qed.

Lemma pick_total (threshold acc : Q) (items : list (token * Q)) :
  (acc <= threshold)%Q →
  (threshold < acc + sum_weights items)%Q →
  ∃ t, pick threshold acc items = Some t.
Proof.
  revert acc. induction items as [|[item weight] rest IH]; intros acc Hacc Hsum.
  - simpl in Hsum. lra.
  - simpl. destruct (Qlt_le_dec threshold (acc + weight)) as [Hlt|Hle].
    + by exists item.
    + apply IH; [done|]. simpl in Hsum. lra.
Qed.

Lemma sum_weights_positive (items : list (token * Q)) :
  items ≠ [] → (∀ t weight, (t, weight) ∈ items → (0 < weight)%Q) →
  (0 < sum_weights items)%Q.
Proof.
  intros Hne Hpos.
  assert (Hnonneg : ∀ l : list (token * Q),
             (∀ t weight, (t, weight) ∈ l → (0 < weight)%Q) → (0 <= sum_weights l)%Q).
  { induction l as [|[t weight] l IH]; intros Hl; simpl; [lra|].
    pose proof (Hl t weight (list_elem_of_here _ _)).
    assert (0 <= sum_weights l)%Q; [|lra].
    apply IH. intros t' weight' Hin. apply (Hl t' weight').
    by apply list_elem_of_further. }
  destruct items as [|[t weight] rest]; [done|]. simpl.
  pose proof (Hpos t weight (list_elem_of_here _ _)).
  assert (0 <= sum_weights rest)%Q; [|lra].
  apply Hnonneg. intros t' weight' Hin. apply (Hpos t' weight').
  by apply list_elem_of_further.
Qed.

Lemma draw_in_unit_interval (q : Q) :
  (0 <= q - inject_Z (Qfloor q))%Q ∧ (q - inject_Z (Qfloor q) < 1)%Q.
Proof.
  pose proof (Qfloor_le q) as Hle. pose proof (Qlt_floor q) as Hlt.
  rewrite inject_Z_plus in Hlt. change (inject_Z 1) with 1%Q in Hlt.
  split; lra.
Qed.

Lemma weighted_choice_list_positive : wc_positive weighted_choice_list.
Proof.
  intros items source t r'. unfold weighted_choice_list.
  destruct (Qle_bool (sum_weights items) 0) eqn:Hsum; [done|].
  intros [= Hpick _]. revert Hpick. apply pick_positive.
  assert (Hpos : (0 < sum_weights items)%Q).
  { apply Qnot_le_lt. intros Hle. apply Qle_bool_iff in Hle. congruence. }
  destruct (draw_in_unit_interval (hd 0%Q source)) as [Hu _].
  by apply Qmult_le_0_compat; [|apply Qlt_le_weak].
Qed.

Lemma weighted_choice_list_total : wc_total weighted_choice_list.
Proof.
  intros items source Hne Hpos. unfold weighted_choice_list.
  pose proof (sum_weights_positive items Hne Hpos) as Hsum.
  destruct (Qle_bool (sum_weights items) 0) eqn:Hle.
  { apply Qle_bool_iff in Hle. lra. }
  destruct (draw_in_unit_interval (hd 0%Q source)) as [Hu0 Hu1].
  destruct (pick_total ((hd 0%Q source - inject_Z (Qfloor (hd 0%Q source)))
                          * sum_weights items) 0 items) as [t Ht].
  - by apply Qmult_le_0_compat; [|apply Qlt_le_weak].
  - rewrite Qplus_0_l.
    rewrite <- (Qmult_1_l (sum_weights items)) at 2.
    by apply Qmult_lt_compat_r.
  - exists t, (tl source). by rewrite Ht.
Qed.

(** ** The statements at concrete models *)



Lemma unknown_key_is_fatal_witness :
  nsteps (loop_step (_generate_next_token weighted_choice_list) emit_default None) 0
    (initial_state model_empty, mkWorld model_empty [])
    (initial_state model_empty, mkWorld model_empty [])
  ∧ last (last_tokens (initial_state model_empty)) = Some "^"
  ∧ "^" ≠ _end_symbol model_empty
  ∧ transitions model_empty !! last_tokens (initial_state model_empty) = None
  ∧ generate_text weighted_choice_list 1 None (mkWorld model_empty [])
    = (Raise (AssertionError "key"), mkWorld model_empty []).
Proof.
  assert (Hsteps : nsteps (loop_step (_generate_next_token weighted_choice_list)
                             emit_default None) 0
                     (initial_state model_empty, mkWorld model_empty [])
                     (initial_state model_empty, mkWorld model_empty []))
    by apply nsteps_O.
  assert (Hlast : last (last_tokens (initial_state model_empty)) = Some "^")
    by reflexivity.
  assert (Hne : "^" ≠ _end_symbol model_empty) by (simpl; discriminate).
  assert (Hkey : transitions model_empty !! last_tokens (initial_state model_empty)
                 = None) by reflexivity.
  split; [exact Hsteps|]. split; [exact Hlast|]. split; [exact Hne|].
  split; [exact Hkey|].
  apply (proj2 (proj2 (unknown_key_is_fatal weighted_choice_list None
                         (mkWorld model_empty []) 0 1 _ _ "^" Hsteps Hlast Hne)));
    [exact Hkey|lia].
Defined.

Lemma generate_text_drops_last_witness :
  __init__ (Some corpus_abc) 1 id = Ret model_abc
  ∧ generate_text weighted_choice_list 5 None (mkWorld model_abc [])
    = (Ret ["a"; "b"; "c"], mkWorld model_abc [])
  ∧ ∃ dropped,
      ["a"; "b"; "c"; "$"] = removelast ["a"; "b"; "c"; "$"] ++ [dropped]
      ∧ last ["$"] = Some dropped
      ∧ (dropped = "$"
         ∨ ∃ m, None = Some m
                ∧ m + 1 <= Z.of_nat (length ["a"; "b"; "c"; "$"])).
Proof.
  assert (Hinit : __init__ (Some corpus_abc) 1 id = Ret model_abc) by reflexivity.
  assert (Hloop : text_loop (_generate_next_token weighted_choice_list)
                    emit_default None 5 (initial_state model_abc)
                    (mkWorld model_abc [])
                  = (Ret (mkLoop ["$"] ["$"] ["a"; "b"; "c"; "$"]),
                     mkWorld model_abc []))
    by (vm_compute; reflexivity).
  pose proof (generate_text_drops_last weighted_choice_list corpus_abc 1 id
                model_abc 5 None [] Hinit) as [Hgen Hdrop].
  split; [exact Hinit|]. split.
  - rewrite Hgen, Hloop. reflexivity.
  - exact (Hdrop _ _ Hloop).
Defined.

(** The capped case of C2: with [max_length = 2] the loop collects three
    tokens and the one removed, ["c"], is not the end sentinel. *)
Example capped_run_drops_a_token :
  (text_loop (_generate_next_token weighted_choice_list) emit_default (Some 2) 3
     (initial_state model_abc) (mkWorld model_abc [])).1
  = Ret (mkLoop ["c"] ["c"] ["a"; "b"; "c"])
  ∧ (generate_text weighted_choice_list 3 (Some 2) (mkWorld model_abc [])).1
    = Ret ["a"; "b"].
Proof. split; vm_compute; reflexivity. Qed.

(** C3 as stated fails: with an emit that forgets the token, the sequence
    returned is made of emissions, not of the raw tokens drawn, and it
    differs from the one returned with the default emit. *)
Lemma output_depends_on_emit :
  (_text_generator 5 (Some (_generate_next_token weighted_choice_list)) emit_x None
     (mkWorld model_abc [])).1 = Ret ["x"; "x"; "x"]
  ∧ (_text_generator 5 (Some (_generate_next_token weighted_choice_list))
       emit_default None (mkWorld model_abc [])).1 = Ret ["a"; "b"; "c"]
  ∧ _text_generator 5 (Some (_generate_next_token weighted_choice_list)) emit_x None
      (mkWorld model_abc [])
    ≠ _text_generator 5 (Some (_generate_next_token weighted_choice_list))
        emit_default None (mkWorld model_abc []).
Proof.
  assert (Hx : (_text_generator 5 (Some (_generate_next_token weighted_choice_list))
                  emit_x None (mkWorld model_abc [])).1 = Ret ["x"; "x"; "x"])
    by (vm_compute; reflexivity).
  assert (Hd : (_text_generator 5 (Some (_generate_next_token weighted_choice_list))
                  emit_default None (mkWorld model_abc [])).1 = Ret ["a"; "b"; "c"])
    by (vm_compute; reflexivity).
  split; [exact Hx|]. split; [exact Hd|].
  intros Heq. rewrite Heq, Hd in Hx. discriminate Hx.
Qed.

Lemma collected_output_is_emissions_witness :
  last (last_tokens (initial_state model_abc)) = Some "^"
  ∧ "^" ≠ _end_symbol (self (mkWorld model_abc ([] : list Q)))
  ∧ _generate_next_token weighted_choice_list
      (last_tokens (initial_state model_abc)) (mkWorld model_abc [])
    = (Ret "a", mkWorld model_abc [])
  ∧ _text_generator 5 (Some (_generate_next_token weighted_choice_list))
      (λ x _ _, String.append x "!") None (mkWorld model_abc [])
    = match _text_generator 5 (Some (_generate_next_token weighted_choice_list))
              emit_default None (mkWorld model_abc []) with
      | (Ret text, w1) => (Ret ((λ x, String.append x "!") <$> text), w1)
      | other => other
      end.
Proof.
  assert (Hlast : last (last_tokens (initial_state model_abc)) = Some "^")
    by reflexivity.
  assert (Hne : "^" ≠ _end_symbol (self (mkWorld model_abc ([] : list Q))))
    by (simpl; discriminate).
  assert (Hnext : _generate_next_token weighted_choice_list
                    (last_tokens (initial_state model_abc)) (mkWorld model_abc [])
                  = (Ret "a", mkWorld model_abc []))
    by (vm_compute; reflexivity).
  split; [exact Hlast|]. split; [exact Hne|]. split; [exact Hnext|].
  exact (proj2 (proj2 (collected_output_is_emissions
                         (_generate_next_token weighted_choice_list)
                         emit_x None 5 (initial_state model_abc)
                         (mkWorld model_abc []) (mkWorld model_abc []) "^" "a"
                         (λ x, String.append x "!") Hlast Hne Hnext))).
Defined.

(** C8 as stated fails: the model trained on the empty corpus has an
    empty table, and [generate_text] with [max_length = 0] ends with the
    assertion error of the first lookup instead of returning the empty
    sequence. *)
Lemma capped_generation_can_fail :
  __init__ (Some []) 1 id = Ret model_empty
  ∧ (generate_text weighted_choice_list 1 (Some 0) (mkWorld model_empty [])).1
    = Raise (AssertionError "key")
  ∧ (generate_text weighted_choice_list 1 (Some 0) (mkWorld model_empty [])).1
    ≠ Ret [].
Proof.
  assert (Hrun : (generate_text weighted_choice_list 1 (Some 0)
                    (mkWorld model_empty [])).1 = Raise (AssertionError "key"))
    by (vm_compute; reflexivity).
  split; [reflexivity|]. split; [exact Hrun|]. rewrite Hrun. discriminate.
Qed.

Lemma capped_generation_terminates_witness :
  0 <= 0
  ∧ (Z.to_nat 0 + 1 <= 1)%nat
  ∧ ∃ text w',
      generate_text weighted_choice_list 1 (Some 0) (mkWorld model_abc [])
      = (Ret text, w')
      ∧ Z.of_nat (length text) <= 0
      ∧ (0 = 0 → text = []).
Proof.
  assert (Hm : 0 <= 0) by lia.
  assert (Hfuel : (Z.to_nat 0 + 1 <= 1)%nat) by (simpl; lia).
  assert (Hinit : __init__ (Some corpus_abc) 1 id = Ret model_abc) by reflexivity.
  assert (Hne : corpus_abc ≠ []) by discriminate.
  split; [exact Hm|]. split; [exact Hfuel|].
  exact (proj2 (capped_generation_terminates weighted_choice_list 0 1 Hm Hfuel)
           corpus_abc 1 id model_abc [] Hinit Hne
           weighted_choice_list_positive weighted_choice_list_total).
Defined.

Lemma key_assertion_unreachable_witness :
  __init__ (Some corpus_abac) 2 id = Ret model_abac
  ∧ corpus_abac ≠ []
  ∧ ∀ msg,
      (generate_text weighted_choice_list 10 None
         (mkWorld model_abac [(1 # 2)%Q; (7 # 4)%Q; (1 # 2)%Q])).1
      ≠ Raise (AssertionError msg).
Proof.
  assert (Hinit : __init__ (Some corpus_abac) 2 id = Ret model_abac)
    by reflexivity.
  assert (Hne : corpus_abac ≠ []) by discriminate.
  split; [exact Hinit|]. split; [exact Hne|].
  exact (proj1 (key_assertion_unreachable weighted_choice_list corpus_abac 2 id
                  model_abac 10 None [(1 # 2)%Q; (7 # 4)%Q; (1 # 2)%Q]
                  Hinit Hne weighted_choice_list_positive)).
Defined.

(** ** More on the trainer: the shape of the table *)

Lemma suffix_length_bounds (buf s : buffer) :
  s ∈ get_suffixes buf → (1 <= length s <= length buf)%nat.
Proof.
  unfold get_suffixes. intros [i [-> Hi]]%list_elem_of_fmap.
  apply elem_of_seq in Hi. rewrite length_drop. lia.
Qed.

Lemma emission_trace_inv emissions (buf : buffer) k t :
  (k, t) ∈ emission_trace buf emissions →
  (1 <= length k <= length buf)%nat ∧ t ∈ emissions.
Proof.
  revert buf. induction emissions as [|e rest IH]; intros buf Hin.
  - by apply elem_of_nil in Hin.
  - cbn [emission_trace] in Hin. apply elem_of_app in Hin as [Hin|Hin].
    + apply list_elem_of_fmap in Hin as [s [[= -> ->] Hs]].
      split; [by apply suffix_length_bounds|apply list_elem_of_here].
    + apply IH in Hin as [Hlen Ht]. rewrite length_buffer_append in Hlen.
      split; [done|by apply list_elem_of_further].
Qed.

Lemma corpus_trace_inv {E} (tok : E → list token) s e o corpus k t :
  (k, t) ∈ corpus_trace tok s e o corpus →
  (1 <= length k <= Z.to_nat o)%nat
  ∧ ∃ entry, entry ∈ corpus ∧ t ∈ tok entry ++ [e].
Proof.
  unfold corpus_trace. intros [entry [Hin Hentry]]%list_elem_of_bind.
  apply emission_trace_inv in Hin as [Hlen Ht].
  rewrite length_prefilled_buffer in Hlen. split; [done|]. by exists entry.
Qed.

(** X1. Every history key of a trained table is a tuple of at least one
    and at most [order] tokens, and every token recorded under a key is a
    token of some corpus entry or the end sentinel. *)
Theorem trained_table_shape {E} (tok : E → list token) (s e : token) (o : Z)
    (corpus : list E) (k : key) (d : gmap string Q) :
  _compute_transitions tok s e o corpus !! k = Some d →
  (1 <= length k <= Z.to_nat o)%nat
  ∧ d ≠ ∅
  ∧ ∀ t, is_Some (d !! t) →
      t = e ∨ ∃ entry, entry ∈ corpus ∧ t ∈ tok entry.
Proof.
  intros Hd.
  assert (Hk : k ∈ dom (_compute_transitions tok s e o corpus))
    by (apply elem_of_dom; eauto).
  apply dom_transitions_trace in Hk as [t0 Ht0].
  pose proof (corpus_trace_inv tok s e o corpus k t0 Ht0) as [Hlen _].
  split; [done|]. split.
  - apply counted_transitions_trace in Ht0. unfold counted in Ht0.
    rewrite Hd in Ht0. simpl in Ht0. intros ->.
    destruct Ht0 as [? Hc]. by rewrite lookup_empty in Hc.
  - intros t Ht.
    assert (Hc : counted (_compute_transitions tok s e o corpus) k t)
      by (unfold counted; by rewrite Hd).
    apply counted_transitions_trace in Hc.
    apply corpus_trace_inv in Hc as [_ (entry & Hentry & Hin)].
    apply elem_of_app in Hin as [Hin|Hin].
    + right. by exists entry.
    + left. by apply list_elem_of_singleton in Hin.
Qed.

Lemma sum_values_ge (m : gmap string Z) t c :
  (∀ t' c', m !! t' = Some c' → 0 < c') → m !! t = Some c → c <= sum_values m.
Proof.
  intros Hpos Hc.
  rewrite <- (insert_id m t c Hc), <- (insert_delete_eq m t c).
  rewrite sum_values_insert_fresh by apply lookup_delete_eq.
  assert (0 <= sum_values (delete t m)); [|lia].
  apply sum_values_nonneg. intros t' c' Hc'.
  apply lookup_delete_Some in Hc' as [_ Hc']. by apply (Hpos t' c').
Qed.

(** X2. Every probability stored in a trained table lies in (0, 1]. *)
Theorem stored_probability_range {E} (tok : E → list token) (s e : token) (o : Z)
    (corpus : list E) (k : key) (d : gmap string Q) (t : token) (p : Q) :
  _compute_transitions tok s e o corpus !! k = Some d →
  d !! t = Some p →
  (0 < p)%Q ∧ (p <= 1)%Q.
Proof.
  intros Hk Hp.
  split; [by apply (transitions_positive tok s e o corpus k d t p)|].
  unfold _compute_transitions, _compute_relative_probs in Hk.
  rewrite lookup_fmap in Hk.
  destruct (count_corpus tok s e o corpus !! k) as [cnt|] eqn:Hcnt; [|done].
  injection Hk as <-.
  destruct (positive_counts_corpus tok s e o corpus k cnt Hcnt) as [Hne Hpos].
  pose proof (sum_values_pos cnt Hne Hpos) as Hsum.
  unfold relative_probs in Hp. rewrite bool_decide_eq_true_2 in Hp by done.
  rewrite lookup_fmap in Hp. destruct (cnt !! t) as [c|] eqn:Hc; [|done].
  injection Hp as <-. pose proof (sum_values_ge cnt t c Hpos Hc) as Hle.
  unfold Qle, Qdiv, Qmult, Qinv, inject_Z. simpl.
  destruct (sum_values cnt) as [|q|q] eqn:Hq; try lia. simpl. lia.
Qed.

(** ** More on the trainer: the order and the union of corpora *)

Lemma increment_comm tr k t k' t' :
  increment (increment tr k t) k' t' = increment (increment tr k' t') k t.
Proof.
  apply map_eq. intros i. destruct (decide (k = k')) as [<-|Hkk].
  - destruct (decide (k = i)) as [<-|Hki].
    + rewrite !lookup_increment_eq. simpl. f_equal.
      destruct (decide (t = t')) as [<-|Htt]; [done|].
      rewrite !lookup_insert_ne by done. by apply insert_insert_ne.
    + by rewrite !lookup_increment_ne.
  - destruct (decide (k = i)) as [<-|Hki].
    + rewrite (lookup_increment_ne _ k' t' k) by done.
      rewrite !lookup_increment_eq.
      by rewrite (lookup_increment_ne _ k' t' k) by done.
    + rewrite (lookup_increment_ne (increment tr k' t') k t i) by done.
      destruct (decide (k' = i)) as [<-|Hk'i].
      * rewrite !lookup_increment_eq.
        by rewrite (lookup_increment_ne _ k t k') by done.
      * by rewrite !lookup_increment_ne.
Qed.

Lemma apply_trace_cons tr p trace :
  apply_trace tr (p :: trace) = apply_trace (increment tr p.1 p.2) trace.
Proof. done. Qed.

Lemma apply_trace_app tr trace1 trace2 :
  apply_trace tr (trace1 ++ trace2) = apply_trace (apply_trace tr trace1) trace2.
Proof. unfold apply_trace. apply foldl_app. Qed.

Lemma apply_trace_perm trace trace' tr :
  trace ≡ₚ trace' → apply_trace tr trace = apply_trace tr trace'.
Proof.
  intros Hperm. revert tr.
  induction Hperm as [|p l l' _ IH|p q l|l l' l'' _ IH1 _ IH2]; intros tr.
  - done.
  - rewrite !apply_trace_cons. apply IH.
  - rewrite !apply_trace_cons. by rewrite increment_comm.
  - by rewrite IH1.
Qed.

(** X3. The order of the corpus entries is irrelevant: training on a
    permutation of the corpus yields the same counts and the same
    transition table. *)
Theorem training_ignores_entry_order {E} (tok : E → list token) (s e : token)
    (o : Z) (corpus corpus' : list E) :
  corpus ≡ₚ corpus' →
  count_corpus tok s e o corpus = count_corpus tok s e o corpus'
  ∧ _compute_transitions tok s e o corpus = _compute_transitions tok s e o corpus'.
Proof.
  intros Hperm.
  assert (Hcounts : count_corpus tok s e o corpus = count_corpus tok s e o corpus').
  { rewrite !count_corpus_trace. apply apply_trace_perm.
    unfold corpus_trace. by rewrite Hperm. }
  split; [done|]. unfold _compute_transitions. by rewrite Hcounts.
Qed.

Lemma count_of_increment tr k t k' t' :
  count_of (increment tr k t) k' t'
  = count_of tr k' t' + (if decide ((k, t) = (k', t')) then 1 else 0).
Proof.
  unfold count_of. destruct (decide (k = k')) as [<-|Hkk].
  - rewrite lookup_increment_eq. simpl.
    destruct (decide (t = t')) as [<-|Htt].
    + rewrite lookup_insert_eq. simpl. by rewrite decide_True.
    + rewrite lookup_insert_ne by done. rewrite decide_False by congruence. lia.
  - rewrite lookup_increment_ne by done. rewrite decide_False by congruence. lia.
Qed.

(** The count of a pair is the number of increments it has received. *)
Lemma count_of_apply_trace trace tr k t :
  count_of (apply_trace tr trace) k t
  = count_of tr k t + Z.of_nat (length (filter (λ p, p = (k, t)) trace)).
Proof.
  revert tr. induction trace as [|[k0 t0] trace IH]; intros tr.
  - simpl. lia.
  - rewrite apply_trace_cons, IH, count_of_increment, filter_cons. simpl.
    destruct (decide ((k0, t0) = (k, t))); simpl; lia.
Qed.

Lemma count_of_empty k t : count_of ∅ k t = 0.
Proof. unfold count_of. rewrite lookup_empty. simpl. by rewrite lookup_empty. Qed.

Lemma get_suffixes_NoDup (buf : buffer) : NoDup (get_suffixes buf).
Proof.
  apply (NoDup_fmap_1 length). rewrite get_suffixes_lengths.
  rewrite reverse_Permutation. apply NoDup_seq.
Qed.

Lemma get_suffixes_elem (buf key0 : buffer) :
  key0 ∈ get_suffixes buf
  ↔ ∃ n, (1 <= n <= length buf)%nat ∧ key0 = drop (length buf - n) buf.
Proof.
  unfold get_suffixes. rewrite list_elem_of_fmap. split.
  - intros [i [-> Hi]]. apply elem_of_seq in Hi.
    exists (length buf - i)%nat. split; [lia|]. f_equal. lia.
  - intros [n [Hn ->]]. exists (length buf - n)%nat. split; [done|].
    apply elem_of_seq. lia.
Qed.

Lemma filter_eq_absent {A} `{EqDecision A} (l : list A) (a : A) :
  a ∉ l → filter (λ x, x = a) l = [].
Proof.
  induction l as [|y l IH]; intros Hnot; [done|].
  rewrite filter_cons. apply not_elem_of_cons in Hnot as [Hne Hnot].
  rewrite decide_False by congruence. by apply IH.
Qed.

Lemma filter_eq_once {A} `{EqDecision A} (l : list A) (a : A) :
  NoDup l → a ∈ l → length (filter (λ x, x = a) l) = 1%nat.
Proof.
  induction 1 as [|y l Hy Hnd IH]; intros Hin; [by apply elem_of_nil in Hin|].
  rewrite filter_cons. destruct (decide (y = a)) as [->|Hne].
  - simpl. by rewrite filter_eq_absent.
  - apply elem_of_cons in Hin as [->|Hin]; [done|]. by apply IH.
Qed.

(** One emission increments, by one, the count of the emission under
    each suffix of the buffer, and nothing else. *)
Lemma count_emission_counts (tr : counts) (buf : buffer) (x : token)
    (key0 : key) (t : token) :
  count_of (count_emission (tr, buf) x).1 key0 t
  = count_of tr key0 t
    + (if decide (key0 ∈ get_suffixes buf ∧ t = x) then 1 else 0).
Proof.
  change (count_emission (tr, buf) x) with (foldl count_emission (tr, buf) [x]).
  rewrite count_emissions_trace, count_of_apply_trace.
  cbn [emission_trace]. rewrite app_nil_r. f_equal.
  destruct (decide (key0 ∈ get_suffixes buf ∧ t = x)) as [[Hin ->]|Hnot].
  - rewrite filter_eq_once; [done| |].
    + apply (NoDup_fmap_2_strong (λ s0 : key, (s0, x)));
        [|apply get_suffixes_NoDup].
      intros s1 s2 _ _ [= ->]. done.
    + apply list_elem_of_fmap. by exists key0.
  - rewrite filter_eq_absent; [done|].
    intros [s [[= -> ->] Hs]]%list_elem_of_fmap. by apply Hnot.
Qed.

(** C7. For a corpus entry that tokenizes to L tokens and an order k, the
    counting loop runs over L+1 emissions (the tokens and the end
    sentinel). At each emission, whatever the history buffer of length k
    holds (start-sentinel padding included), the keys incremented are the
    trailing suffixes of the buffer, one of each length 1 to k (the last n
    tokens, for n from 1 to k): the count of the emission under each of
    them grows by one and no other count changes, so the table receives
    exactly k increments, and the buffer slides and keeps its length. Over
    the whole entry each count grows by the number of times its pair
    occurs among the increments, and the table receives exactly
    (L+1) * k increments. *)
Theorem increments_per_entry {E} (tok : E → list token) (s e : token) (k : Z)
    (tr : counts) (entry : E) :
  0 <= k →
  let L := Z.of_nat (length (tok entry)) in
  Z.of_nat (length (tok entry ++ [e])) = L + 1
  ∧ (∀ (buf : buffer) (tr' : counts) (x : token),
       Z.of_nat (length buf) = k →
       length <$> get_suffixes buf = reverse (seq 1 (Z.to_nat k))
       ∧ NoDup (get_suffixes buf)
       ∧ (∀ key0 : key,
            key0 ∈ get_suffixes buf
            ↔ ∃ n, (1 <= n <= Z.to_nat k)%nat ∧ key0 = drop (Z.to_nat k - n) buf)
       ∧ (∀ key0 : key,
            key0 ∈ get_suffixes buf →
            count_of (count_emission (tr', buf) x).1 key0 x = count_of tr' key0 x + 1)
       ∧ (∀ (key0 : key) (t : token),
            ¬ (key0 ∈ get_suffixes buf ∧ t = x) →
            count_of (count_emission (tr', buf) x).1 key0 t = count_of tr' key0 t)
       ∧ total_count (count_emission (tr', buf) x).1 = total_count tr' + k
       ∧ (count_emission (tr', buf) x).2 = buffer_append x buf
       ∧ Z.of_nat (length (count_emission (tr', buf) x).2) = k)
  ∧ Z.of_nat (length (entry_trace tok s e k entry)) = (L + 1) * k
  ∧ (∀ (key0 : key) (t : token),
       count_of (count_entry tok s e k tr entry) key0 t
       = count_of tr key0 t
         + Z.of_nat (length (filter (λ p, p = (key0, t))
                               (entry_trace tok s e k entry))))
  ∧ total_count (count_entry tok s e k tr entry) = total_count tr + (L + 1) * k.
Proof.
  intros Hk L. subst L.
  assert (Hlen : Z.of_nat (length (entry_trace tok s e k entry))
                 = (Z.of_nat (length (tok entry)) + 1) * k).
  { unfold entry_trace.
    rewrite emission_trace_length, length_app, length_prefilled_buffer.
    simpl. lia. }
  split; [rewrite length_app; simpl; lia|].
  split; [|split; [done|split]].
  - intros buf tr' x Hbuf.
    assert (Hnat : Z.to_nat k = length buf) by lia.
    split; [|split; [|split; [|split; [|split; [|split; [|split]]]]]].
    + rewrite get_suffixes_lengths. do 2 f_equal. lia.
    + apply get_suffixes_NoDup.
    + intros key0. rewrite Hnat. apply get_suffixes_elem.
    + intros key0 Hin. rewrite count_emission_counts.
      by rewrite decide_True.
    + intros key0 t Hnot. rewrite count_emission_counts.
      rewrite decide_False by done. lia.
    + change (count_emission (tr', buf) x) with (foldl count_emission (tr', buf) [x]).
      rewrite count_emissions_trace, total_count_apply_trace.
      cbn [emission_trace]. rewrite app_nil_r, length_fmap, get_suffixes_length. lia.
    + done.
    + simpl. rewrite length_buffer_append. done.
  - intros key0 t. by rewrite count_entry_trace, count_of_apply_trace.
  - rewrite count_entry_trace, total_count_apply_trace. lia.
Qed.

Lemma increments_per_entry_witness :
  0 <= 2
  ∧ count_of (count_emission (∅, ["^"; "a"]) "b").1 ["a"] "b" = count_of ∅ ["a"] "b" + 1
  ∧ count_of (count_emission (∅, ["^"; "a"]) "b").1 ["^"; "a"] "b"
    = count_of ∅ ["^"; "a"] "b" + 1
  ∧ total_count (count_entry id "^" "$" 2 ∅ ["a"; "b"; "c"])
    = total_count ∅ + (Z.of_nat (length (id ["a"; "b"; "c"])) + 1) * 2.
Proof.
  assert (Hk : 0 <= 2) by lia.
  assert (Hbuf : Z.of_nat (length ["^"; "a"]) = 2) by reflexivity.
  assert (H1 : ["a"] ∈ get_suffixes ["^"; "a"])
    by (apply list_elem_of_further, list_elem_of_here).
  assert (H2 : ["^"; "a"] ∈ get_suffixes ["^"; "a"]) by apply list_elem_of_here.
  pose proof (increments_per_entry id "^" "$" 2 ∅ ["a"; "b"; "c"] Hk)
    as (_ & Hstep & _ & _ & Htotal).
  pose proof (Hstep ["^"; "a"] ∅ "b" Hbuf) as (_ & _ & _ & Hinc & _).
  split; [exact Hk|]. split; [exact (Hinc ["a"] H1)|].
  split; [exact (Hinc ["^"; "a"] H2)|exact Htotal].
Defined.

(** X4. Counts are additive: the count of a token under a key after
    training on the concatenation of two corpora is the sum of the counts
    after training on each. *)
Theorem counts_additive {E} (tok : E → list token) (s e : token) (o : Z)
    (corpus1 corpus2 : list E) (k : key) (t : token) :
  count_of (count_corpus tok s e o (corpus1 ++ corpus2)) k t
  = count_of (count_corpus tok s e o corpus1) k t
    + count_of (count_corpus tok s e o corpus2) k t.
Proof.
  rewrite !count_corpus_trace, !count_of_apply_trace, !count_of_empty.
  unfold corpus_trace. rewrite bind_app, filter_app, length_app. lia.
Qed.

(** ** More on the trainer: the lower orders inside a table *)

Lemma buffer_append_drop1 x (buf : buffer) :
  buf ≠ [] → buffer_append x buf = drop 1 (buf ++ [x]).
Proof. by destruct buf. Qed.

Lemma drop_buffer_append x (buf : buffer) n :
  drop n (buffer_append x buf) = buffer_append x (drop n buf).
Proof.
  destruct (decide (buf = [])) as [->|Hne]; [simpl; by rewrite !drop_nil|].
  rewrite buffer_append_drop1, drop_drop by done.
  destruct (decide (n < length buf)%nat) as [Hlt|Hge].
  - rewrite buffer_append_drop1.
    + rewrite <- (drop_app_le buf [x] n) by lia. by rewrite drop_drop, Nat.add_comm.
    + intros Hnil. apply (f_equal length) in Hnil.
      rewrite length_drop in Hnil. simpl in Hnil. lia.
  - rewrite (drop_ge buf n) by lia. simpl.
    apply drop_ge. rewrite length_app. simpl. lia.
Qed.

Lemma filter_suffixes (buf : buffer) (j : nat) :
  filter (λ s : key, (length s <= j)%nat) (get_suffixes buf)
  = get_suffixes (drop (length buf - j) buf).
Proof.
  induction buf as [|x buf IH]; [done|].
  rewrite get_suffixes_cons, filter_cons, IH.
  destruct (decide (length (x :: buf) <= j)%nat) as [Hle|Hgt].
  - cbn [length] in Hle.
    replace (length (x :: buf) - j)%nat with 0%nat by (cbn [length]; lia).
    replace (length buf - j)%nat with 0%nat by lia.
    by rewrite !drop_0, get_suffixes_cons.
  - cbn [length] in Hgt.
    replace (length (x :: buf) - j)%nat with (S (length buf - j))
      by (cbn [length]; lia).
    done.
Qed.

Lemma filter_emission_trace emissions (buf : buffer) (j : nat) :
  filter (λ p : key * token, (length p.1 <= j)%nat) (emission_trace buf emissions)
  = emission_trace (drop (length buf - j) buf) emissions.
Proof.
  revert buf. induction emissions as [|e rest IH]; intros buf; [done|].
  cbn [emission_trace]. rewrite filter_app, IH, length_buffer_append.
  rewrite drop_buffer_append. f_equal.
  rewrite <- filter_suffixes.
  induction (get_suffixes buf) as [|s l IHl]; [done|].
  rewrite fmap_cons, !filter_cons. simpl.
  destruct (decide (length s <= j)%nat); by rewrite IHl.
Qed.

Lemma filter_corpus_trace {E} (tok : E → list token) s e (j k : Z) corpus :
  j <= k →
  filter (λ p : key * token, (length p.1 <= Z.to_nat j)%nat)
    (corpus_trace tok s e k corpus)
  = corpus_trace tok s e j corpus.
Proof.
  intros Hjk. unfold corpus_trace.
  induction corpus as [|entry corpus IH]; [done|].
  rewrite !bind_cons, filter_app, IH. f_equal.
  unfold entry_trace. rewrite filter_emission_trace. f_equal.
  unfold prefilled_buffer. rewrite length_replicate, drop_replicate.
  f_equal. lia.
Qed.

(** The mapping of a key after a sequence of increments depends on the
    increments of that key alone. *)
Lemma apply_trace_lookup_filter (trace : list (key * token)) (tr tr' : counts)
    (k : key) :
  tr !! k = tr' !! k →
  apply_trace tr trace !! k
  = apply_trace tr' (filter (λ p : key * token, p.1 = k) trace) !! k.
Proof.
  revert tr tr'. induction trace as [|[k0 t0] trace IH]; intros tr tr' Heq; [done|].
  rewrite filter_cons, apply_trace_cons. simpl.
  destruct (decide (k0 = k)) as [->|Hne].
  - rewrite apply_trace_cons. apply IH. simpl.
    by rewrite !lookup_increment_eq, Heq.
  - apply IH. by rewrite lookup_increment_ne.
Qed.

Lemma lower_order_lookup {E} (tok : E → list token) (s e : token) (j k : Z)
    (corpus : list E) (key0 : key) :
  j <= k →
  (length key0 <= Z.to_nat j)%nat →
  count_corpus tok s e k corpus !! key0 = count_corpus tok s e j corpus !! key0
  ∧ _compute_transitions tok s e k corpus !! key0
    = _compute_transitions tok s e j corpus !! key0.
Proof.
  intros Hjk Hlen.
  assert (Hcounts : count_corpus tok s e k corpus !! key0
                    = count_corpus tok s e j corpus !! key0).
  { rewrite !count_corpus_trace.
    rewrite (apply_trace_lookup_filter (corpus_trace tok s e k corpus) ∅ ∅ key0 eq_refl).
    rewrite (apply_trace_lookup_filter (corpus_trace tok s e j corpus) ∅ ∅ key0 eq_refl).
    rewrite <- (filter_corpus_trace tok s e j k corpus Hjk).
    rewrite list_filter_filter_l; [done|]. intros [k1 t1] Hk1. simpl in *. by subst. }
  split; [done|].
  unfold _compute_transitions, _compute_relative_probs.
  by rewrite !lookup_fmap, Hcounts.
Qed.

(** X5. A table of order [k] contains the tables of the lower orders: on
    every key of length at most [j], with [j ≤ k], training with order [k]
    and training with order [j] store the same counts and the same
    mapping. *)
Theorem lower_order_embedded {E} (tok : E → list token) (s e : token) (j k : Z)
    (corpus : list E) (key0 : key) :
  j <= k →
  (length key0 <= Z.to_nat j)%nat →
  count_corpus tok s e k corpus !! key0 = count_corpus tok s e j corpus !! key0
  ∧ _compute_transitions tok s e k corpus !! key0
    = _compute_transitions tok s e j corpus !! key0.
Proof. apply lower_order_lookup. Qed.

(** ** More on the trainer: the entries are paths of the table *)

Lemma slide_cons (buf : buffer) t tokens :
  slide buf (t :: tokens) = slide (buffer_append t buf) tokens.
Proof. done. Qed.

Lemma slide_snoc (buf : buffer) tokens t :
  slide buf (tokens ++ [t]) = buffer_append t (slide buf tokens).
Proof. unfold slide. by rewrite foldl_snoc. Qed.

Lemma length_slide (buf : buffer) tokens : length (slide buf tokens) = length buf.
Proof.
  revert buf. induction tokens as [|t tokens IH]; intros buf; [done|].
  by rewrite slide_cons, IH, length_buffer_append.
Qed.

Lemma emission_trace_at emissions (buf : buffer) i t :
  buf ≠ [] →
  emissions !! i = Some t →
  (slide buf (take i emissions), t) ∈ emission_trace buf emissions.
Proof.
  revert buf i. induction emissions as [|e rest IH]; intros buf i Hne Hi; [done|].
  destruct i as [|i].
  - injection Hi as ->. by apply emission_trace_first.
  - cbn [take emission_trace]. rewrite slide_cons. apply elem_of_app. right.
    apply IH; [by apply buffer_append_nonempty|done].
Qed.

Lemma prefilled_buffer_nonempty s (o : Z) : 1 <= o → prefilled_buffer s o ≠ [].
Proof.
  intros Ho Hnil. apply (f_equal length) in Hnil.
  rewrite length_prefilled_buffer in Hnil. simpl in Hnil. lia.
Qed.

(** X6. Every corpus entry is a path of the trained table: at each
    position of an entry (its end sentinel included), the history window
    reached by sliding the start-padded buffer over the tokens before that
    position is a key of the table, and the token at that position has a
    positive probability under it. *)
Theorem entries_are_paths {E} (tok : E → list token) (s e : token) (o : Z)
    (corpus : list E) (entry : E) (i : nat) (t : token) :
  1 <= o →
  entry ∈ corpus →
  (tok entry ++ [e]) !! i = Some t →
  ∃ d p,
    _compute_transitions tok s e o corpus
      !! slide (prefilled_buffer s o) (take i (tok entry ++ [e])) = Some d
    ∧ d !! t = Some p
    ∧ (0 < p)%Q.
Proof.
  intros Ho Hentry Hi.
  assert (Hin : (slide (prefilled_buffer s o) (take i (tok entry ++ [e])), t)
                ∈ corpus_trace tok s e o corpus).
  { unfold corpus_trace. apply list_elem_of_bind. exists entry. split; [|done].
    apply emission_trace_at; [by apply prefilled_buffer_nonempty|done]. }
  apply counted_transitions_trace in Hin. unfold counted in Hin.
  destruct (_compute_transitions tok s e o corpus !! _) as [d|] eqn:Hd.
  - simpl in Hin. destruct Hin as [p Hp]. exists d, p.
    split; [done|]. split; [done|].
    by eapply (transitions_positive tok s e o corpus).
  - destruct Hin as [? Hc]. cbn in Hc. by rewrite lookup_empty in Hc.
Qed.

(** ** More on the generator *)

Lemma removelast_take {A} (l : list A) : removelast l = take (length l - 1) l.
Proof.
  induction l as [|x [|y l] IH]; [done..|].
  change (x :: removelast (y :: l) = take (length (x :: y :: l) - 1) (x :: y :: l)).
  rewrite IH. cbn [length]. by rewrite !Nat.sub_succ, !Nat.sub_0_r.
Qed.

Section MoreGeneratorFacts.
Context {E R : Type}.
Variable wc : list (token * Q) → R → option token * R.

(** What the loop keeps true of the collected sequence [g], from the
    buffer [buf0] it started with: the history buffer is [buf0] slid over
    [g], and each token of [g] has a positive probability under the window
    that precedes it. *)
Lemma text_loop_supported ml fuel st (w : @world E R) st' w' (buf0 : buffer) :
  wc_positive wc →
  last_tokens st = slide buf0 (generated_tokens st) →
  (∀ i t, generated_tokens st !! i = Some t →
     ∃ d p, transitions (self w) !! slide buf0 (take i (generated_tokens st)) = Some d
            ∧ d !! t = Some p ∧ (0 < p)%Q) →
  text_loop (_generate_next_token wc) emit_default ml fuel st w = (Ret st', w') →
  last_tokens st' = slide buf0 (generated_tokens st')
  ∧ ∀ i t, generated_tokens st' !! i = Some t →
      ∃ d p, transitions (self w) !! slide buf0 (take i (generated_tokens st')) = Some d
             ∧ d !! t = Some p ∧ (0 < p)%Q.
Proof.
  intros Hpos. revert st w.
  induction fuel as [|fuel IH]; intros st w Hbuf Hsup; [done|].
  rewrite text_loop_S.
  destruct (last (last_tokens st)) as [newest|]; [|done].
  case_bool_decide; [|by intros [= <- <-]].
  unfold _generate_next_token. rewrite helper_unfold.
  destruct (transitions (self w) !! last_tokens st) as [d|] eqn:Hd; [|done].
  destruct (wc (map_to_list d) (random w)) as [[t|] r'] eqn:Hwc; [|done].
  apply Hpos in Hwc as [p [Hin Hp]]. apply elem_of_map_to_list in Hin.
  assert (Hbuf' : last_tokens (record_emission emit_default t st)
                  = slide buf0 (generated_tokens (record_emission emit_default t st))).
  { simpl. unfold emit_default. by rewrite slide_snoc, Hbuf. }
  assert (Hsup' : ∀ i t0,
             generated_tokens (record_emission emit_default t st) !! i = Some t0 →
             ∃ d0 p0,
               transitions (self w)
                 !! slide buf0 (take i (generated_tokens
                                          (record_emission emit_default t st)))
               = Some d0 ∧ d0 !! t0 = Some p0 ∧ (0 < p0)%Q).
  { simpl. unfold emit_default. intros i t0 Hi.
    destruct (decide (i < length (generated_tokens st))%nat) as [Hlt|Hge].
    - rewrite lookup_app_l in Hi by done. rewrite take_app_le by lia.
      by apply Hsup.
    - pose proof (lookup_lt_Some _ _ _ Hi) as Hlen.
      rewrite length_app in Hlen. simpl in Hlen.
      assert (i = length (generated_tokens st)) as -> by lia.
      rewrite list_lookup_middle in Hi by done. injection Hi as <-.
      rewrite take_app_length, <- Hbuf. by exists d, p. }
  destruct (cap_reached ml (generated_tokens (record_emission emit_default t st))).
  - by intros [= <- <-].
  - intros Hloop.
    by apply (IH (record_emission emit_default t st) (mkWorld (self w) r')
                Hbuf' Hsup') in Hloop.
Qed.

Lemma generate_text_supported fuel ml (w : @world E R) text w' :
  wc_positive wc →
  generate_text wc fuel ml w = (Ret text, w') →
  ∀ i t, text !! i = Some t →
    ∃ d p,
      transitions (self w)
        !! slide (prefilled_buffer (_start_symbol (self w)) (order (self w)))
             (take i text) = Some d
      ∧ d !! t = Some p ∧ (0 < p)%Q.
Proof.
  intros Hpos Hgen i t Hi.
  unfold generate_text in Hgen. rewrite _text_generator_unfold in Hgen.
  destruct (text_loop _ _ _ _ _ _) as [[st|e|] w1] eqn:Hloop; try done.
  injection Hgen as <- <-.
  apply (text_loop_supported _ _ _ _ _ _
           (prefilled_buffer (_start_symbol (self w)) (order (self w))) Hpos)
    in Hloop as [_ Hsup]; [|done|done].
  rewrite removelast_take in Hi |- *.
  apply lookup_take_Some in Hi as [Hi Hlt].
  destruct (Hsup i t Hi) as (d & p & Hd & Hp & Hpp).
  exists d, p. rewrite take_take, Nat.min_l in * by lia. done.
Qed.

(** X7. For every model and a weighted choice that only returns outcomes
    with a positive weight, the sequence returned by [generate_text]
    follows the table: for each position, the history window obtained by
    sliding the all-start buffer over the tokens before it is a key of the
    table, and the token at that position has a positive probability under
    that key. *)
Theorem generated_text_follows_table (fuel : nat) (max_length : option Z)
    (w : @world E R) (text : list token) (w' : @world E R) (i : nat) (t : token) :
  wc_positive wc →
  generate_text wc fuel max_length w = (Ret text, w') →
  text !! i = Some t →
  ∃ d p,
    transitions (self w)
      !! slide (prefilled_buffer (_start_symbol (self w)) (order (self w)))
           (take i text) = Some d
    ∧ d !! t = Some p ∧ (0 < p)%Q.
Proof. intros Hpos Hgen Hi. by apply (generate_text_supported fuel max_length w text w'). Qed.

(** When the loop returns, no element of the collected sequence but the
    last is the end sentinel, and the last is the newest history token. *)
Lemma text_loop_no_end ml fuel st (w : @world E R) st' w' :
  (generated_tokens st = []
   ∨ ∃ pre d, generated_tokens st = pre ++ [d]
              ∧ last (last_tokens st) = Some d
              ∧ _end_symbol (self w) ∉ pre) →
  text_loop (_generate_next_token wc) emit_default ml fuel st w = (Ret st', w') →
  generated_tokens st' = []
  ∨ ∃ pre d, generated_tokens st' = pre ++ [d]
             ∧ last (last_tokens st') = Some d
             ∧ _end_symbol (self w) ∉ pre.
Proof.
  revert st w. induction fuel as [|fuel IH]; intros st w Hinv; [done|].
  rewrite text_loop_S.
  destruct (last (last_tokens st)) as [newest|] eqn:Hlast; [|done].
  case_bool_decide as Hnewest; [|intros [= <- <-]; by rewrite Hlast].
  pose proof (helper_frame wc (last_tokens st) w) as Hframe.
  unfold _generate_next_token.
  destruct (_generate_next_token_helper wc (last_tokens st) w)
    as [[t|e|] w1]; try done.
  simpl in Hframe.
  assert (Hbuf : last_tokens st ≠ []) by (by intros Hnil; rewrite Hnil in Hlast).
  assert (Hinv' : generated_tokens (record_emission emit_default t st) = []
                  ∨ ∃ pre d,
                      generated_tokens (record_emission emit_default t st) = pre ++ [d]
                      ∧ last (last_tokens (record_emission emit_default t st)) = Some d
                      ∧ _end_symbol (self w1) ∉ pre).
  { right. exists (generated_tokens st), t. split; [done|].
    split; [by apply last_buffer_append|]. rewrite Hframe.
    destruct Hinv as [->|(pre & d & -> & Hd & Hpre)]; [apply not_elem_of_nil|].
    injection Hd as <-.
    intros [Hin|Hin%list_elem_of_singleton]%elem_of_app; [done|congruence]. }
  destruct (cap_reached ml (generated_tokens (record_emission emit_default t st))).
  - intros [= <- <-]. by rewrite <- Hframe.
  - intros Hloop. apply (IH _ _ Hinv') in Hloop. by rewrite <- Hframe.
Qed.

Lemma generate_text_no_end fuel ml (w : @world E R) text w' :
  generate_text wc fuel ml w = (Ret text, w') →
  _end_symbol (self w) ∉ text.
Proof.
  intros Hgen. unfold generate_text in Hgen.
  rewrite _text_generator_unfold in Hgen.
  destruct (text_loop _ _ _ _ _ _) as [[st|e|] w1] eqn:Hloop; try done.
  injection Hgen as <- <-.
  apply text_loop_no_end in Hloop as [->|(pre & d & -> & _ & Hpre)]; [| |by left].
  - apply not_elem_of_nil.
  - by rewrite removelast_last.
Qed.

(** X8. For every model, every weighted choice and every cap, a sequence
    returned by [generate_text] never contains the end sentinel. *)
Theorem generated_text_has_no_end_sentinel (fuel : nat) (max_length : option Z)
    (w : @world E R) (text : list token) (w' : @world E R) :
  generate_text wc fuel max_length w = (Ret text, w') →
  _end_symbol (self w) ∉ text.
Proof. apply generate_text_no_end. Qed.

(** X9. Every token of a sequence generated from a trained model, with a
    weighted choice that only returns outcomes with a positive weight, is
    a token of some corpus entry. *)
Theorem generated_tokens_from_corpus (corpus : list E) (o : Z)
    (tok : E → list token) (me : Markov E) (fuel : nat) (max_length : option Z)
    (r : R) (text : list token) (w' : @world E R) (t : token) :
  __init__ (Some corpus) o tok = Ret me →
  wc_positive wc →
  generate_text wc fuel max_length (mkWorld me r) = (Ret text, w') →
  t ∈ text →
  ∃ entry, entry ∈ corpus ∧ t ∈ tok entry.
Proof.
  intros Hinit Hpos Hgen Ht.
  destruct (__init___cases (Some corpus) o tok)
    as [[_ Hi]|[[_ Hi]|[(_ & _ & Hi)|(Ho & c & [= <-] & Hi)]]];
    rewrite Hi in Hinit; try discriminate Hinit.
  injection Hinit as <-.
  pose proof (generate_text_no_end _ _ _ _ _ Hgen) as Hend. simpl in Hend.
  pose proof Ht as Hi'. apply list_elem_of_lookup in Hi' as [i Hlook].
  destruct (generate_text_supported _ _ _ _ _ Hpos Hgen i t Hlook)
    as (d & p & Hd & Hp & _).
  cbn [self transitions] in Hd.
  assert (Hc : counted (_compute_transitions tok "^" "$" o corpus)
                 (slide (prefilled_buffer "^" o) (take i text)) t).
  { unfold counted. cbn [self _start_symbol order] in Hd. rewrite Hd. simpl. eauto. }
  apply counted_transitions_trace in Hc.
  apply corpus_trace_inv in Hc as [_ (entry & Hentry & Hin)].
  exists entry. split; [done|].
  apply elem_of_app in Hin as [Hin|Hin%list_elem_of_singleton]; [done|].
  by subst.
Qed.

(** X10. With a cap that is zero or negative, [generate_text] on a
    trained model draws exactly one token and returns the empty sequence;
    when that draw fails, the call ends with the error of the draw. *)
Theorem nonpositive_cap_returns_empty (corpus : list E) (o : Z)
    (tok : E → list token) (me : Markov E) (fuel : nat) (m : Z) (r : R) :
  __init__ (Some corpus) o tok = Ret me →
  m <= 0 →
  generate_text wc (S fuel) (Some m) (mkWorld me r)
  = match _generate_next_token wc (prefilled_buffer "^" o) (mkWorld me r) with
    | (Ret _, w') => (Ret [], w')
    | (Raise e, w') => (Raise e, w')
    | (OutOfFuel, w') => (OutOfFuel, w')
    end.
Proof.
  intros Hinit Hm.
  destruct (__init___cases (Some corpus) o tok)
    as [[_ Hi]|[[_ Hi]|[(_ & _ & Hi)|(Ho & c & [= <-] & Hi)]]];
    rewrite Hi in Hinit; try discriminate Hinit.
  injection Hinit as <-.
  unfold generate_text. rewrite _text_generator_unfold, text_loop_S.
  cbn [self initial_state last_tokens _start_symbol order _end_symbol].
  assert (Hlast : last (prefilled_buffer "^" o) = Some "^").
  { unfold prefilled_buffer. destruct (Z.to_nat o) as [|n] eqn:Hn; [lia|].
    by rewrite replicate_S_end, last_snoc. }
  rewrite Hlast, bool_decide_eq_true_2 by done.
  destruct (_generate_next_token wc (prefilled_buffer "^" o) _)
    as [[t|e|] w1]; try done.
  unfold cap_reached. simpl. rewrite bool_decide_eq_true_2 by lia. done.
Qed.

(** With a cap [m], a loop that has collected fewer than [m + 1] elements
    returns with exactly [m + 1] elements collected, unless it ended on
    its condition with fewer. *)
Lemma text_loop_cap_exact emit (m : Z) fuel st (w : @world E R) st' w' :
  Z.of_nat (length (generated_tokens st)) < m + 1 →
  text_loop (_generate_next_token wc) emit (Some m) fuel st w = (Ret st', w') →
  Z.of_nat (length (generated_tokens st')) = m + 1
  ∨ (Z.of_nat (length (generated_tokens st')) < m + 1
     ∧ last (last_tokens st') = Some (_end_symbol (self w))).
Proof.
  revert st w. induction fuel as [|fuel IH]; intros st w Hlen; [done|].
  rewrite text_loop_S.
  destruct (last (last_tokens st)) as [newest|] eqn:Hlast; [|done].
  case_bool_decide as Hnewest.
  - pose proof (helper_frame wc (last_tokens st) w) as Hframe.
    unfold _generate_next_token.
    destruct (_generate_next_token_helper wc (last_tokens st) w)
      as [[t|e|] w1]; try done.
    simpl in Hframe.
    assert (Hlen' : length (generated_tokens (record_emission emit t st))
                    = S (length (generated_tokens st))).
    { simpl. rewrite length_app. simpl. lia. }
    destruct (cap_reached (Some m) (generated_tokens (record_emission emit t st)))
      eqn:Hcap; unfold cap_reached in Hcap.
    + apply bool_decide_eq_true in Hcap. intros [= <- <-]. left. lia.
    + apply bool_decide_eq_false in Hcap. intros Hloop.
      apply IH in Hloop; [by rewrite <- Hframe|lia].
  - intros [= <- <-]. right. split; [done|]. congruence.
Qed.

(** X11. With a cap [max_length = m ≥ 0], a sequence returned by
    [generate_text] has exactly [m] elements, unless the generation ended
    before the cap because the end sentinel was drawn, in which case it
    has fewer. *)
Theorem capped_length_exact (fuel : nat) (m : Z) (w : @world E R)
    (text : list token) (w' : @world E R) :
  0 <= m →
  generate_text wc fuel (Some m) w = (Ret text, w') →
  ∃ st,
    text_loop (_generate_next_token wc) emit_default (Some m) fuel
      (initial_state (self w)) w = (Ret st, w')
    ∧ text = removelast (generated_tokens st)
    ∧ (Z.of_nat (length text) = m
       ∨ (Z.of_nat (length text) < m
          ∧ last (last_tokens st) = Some (_end_symbol (self w)))).
Proof.
  intros Hm Hgen. unfold generate_text in Hgen.
  rewrite _text_generator_unfold in Hgen.
  destruct (text_loop _ _ _ _ _ _) as [[st|e|] w1] eqn:Hloop; try done.
  injection Hgen as <- <-. exists st. split; [done|]. split; [done|].
  rewrite length_removelast_pred.
  apply text_loop_cap_exact in Hloop as [Hex|[Hlt Hend]]; [| |simpl; lia].
  - left. lia.
  - destruct (decide (Z.of_nat (length (generated_tokens st)) = 0)).
    + destruct (decide (m = 0)); [left; lia|right; split; [lia|done]].
    + right. split; [lia|done].
Qed.

(** Whatever the emit, the loop draws the same tokens: it ends in the same
    way, on the same history buffer, with as many elements collected and
    the same world. *)
Lemma text_loop_any_emit (next_token : buffer → @M E R token)
    (emit : token → buffer → buffer → token) ml fuel st_e st (w : @world E R) :
  last_tokens st_e = last_tokens st →
  length (generated_tokens st_e) = length (generated_tokens st) →
  match text_loop next_token emit ml fuel st_e w,
        text_loop next_token emit_default ml fuel st w with
  | (Ret a, wa), (Ret b, wb) =>
      wa = wb ∧ last_tokens a = last_tokens b
      ∧ length (generated_tokens a) = length (generated_tokens b)
  | (Raise e, wa), (Raise e', wb) => e = e' ∧ wa = wb
  | (OutOfFuel, wa), (OutOfFuel, wb) => wa = wb
  | _, _ => False
  end.
Proof.
  revert st_e st w. induction fuel as [|fuel IH]; intros st_e st w Hlt Hg; [done|].
  rewrite !text_loop_S, Hlt.
  destruct (last (last_tokens st)) as [newest|]; [|done].
  case_bool_decide; [|done].
  destruct (next_token (last_tokens st) w) as [[new_token|e|] w1]; try done.
  assert (Hg' : length (generated_tokens (record_emission emit new_token st_e))
                = length (generated_tokens (record_emission emit_default new_token st))).
  { simpl. rewrite !length_app. simpl. lia. }
  rewrite (cap_reached_length ml _ _ Hg').
  destruct (cap_reached ml _).
  - split; [done|]. split; [|done]. simpl. by rewrite Hlt.
  - apply IH; [|done]. simpl. by rewrite Hlt.
Qed.

(** X12. The emit transform never influences the chain: for every emit
    that is a function of its arguments (it does not mutate the buffers it
    is given), [_text_generator] ends as it does with the default emit,
    with the same error if any, the same final world (model and random
    source), and a sequence of the same length. *)
Theorem emit_does_not_influence_chain (next_token : buffer → @M E R token)
    (emit : token → buffer → buffer → token) (max_length : option Z)
    (fuel : nat) (w : @world E R) :
  match _text_generator fuel (Some next_token) emit max_length w,
        _text_generator fuel (Some next_token) emit_default max_length w with
  | (Ret text, wa), (Ret text', wb) => wa = wb ∧ length text = length text'
  | (Raise e, wa), (Raise e', wb) => e = e' ∧ wa = wb
  | (OutOfFuel, wa), (OutOfFuel, wb) => wa = wb
  | _, _ => False
  end.
Proof.
  rewrite !_text_generator_unfold.
  pose proof (text_loop_any_emit next_token emit max_length fuel
                (initial_state (self w)) (initial_state (self w)) w
                eq_refl eq_refl) as Hsim.
  destruct (text_loop next_token emit _ _ _ _) as [[a|e|] wa];
    destruct (text_loop next_token emit_default _ _ _ _) as [[b|e'|] wb];
    try done.
  destruct Hsim as (-> & _ & Hlen). split; [done|].
  by rewrite !length_removelast_pred, Hlen.
Qed.

(** ** Generating back a corpus of one sequence *)

Lemma slide_nonempty (buf : buffer) tokens : buf ≠ [] → slide buf tokens ≠ [].
Proof.
  intros Hne Hnil. apply Hne, length_zero_iff_nil.
  by rewrite <- (length_slide buf tokens), Hnil.
Qed.

Lemma last_slide_snoc (buf : buffer) tokens t :
  buf ≠ [] → last (slide buf (tokens ++ [t])) = Some t.
Proof.
  intros Hne. rewrite slide_snoc. by apply last_buffer_append, slide_nonempty.
Qed.

Lemma emission_trace_full emissions (buf b : buffer) t :
  (b, t) ∈ emission_trace buf emissions →
  length b = length buf →
  ∃ i, emissions !! i = Some t ∧ b = slide buf (take i emissions).
Proof.
  revert buf. induction emissions as [|e rest IH]; intros buf Hin Hlen.
  - by apply elem_of_nil in Hin.
  - cbn [emission_trace] in Hin. apply elem_of_app in Hin as [Hin|Hin].
    + apply list_elem_of_fmap in Hin as [s [[= -> ->] Hs]].
      apply full_suffix in Hs as ->; [|done]. by exists 0%nat.
    + apply IH in Hin as (i & Hi & ->); [|by rewrite length_buffer_append].
      by exists (S i).
Qed.

(** In a sequence without repetition that does not hold the start
    sentinel, the window before a position determines the position. *)
Lemma window_determines_position (s : token) (o : Z) (es : list token) i j :
  1 <= o → NoDup es → s ∉ es →
  (i < length es)%nat → (j < length es)%nat →
  slide (prefilled_buffer s o) (take i es) = slide (prefilled_buffer s o) (take j es) →
  i = j.
Proof.
  intros Ho Hnd Hs Hi Hj Heq.
  assert (Hbuf : prefilled_buffer s o ≠ []) by by apply prefilled_buffer_nonempty.
  assert (Hstart : last (prefilled_buffer s o) = Some s).
  { unfold prefilled_buffer. destruct (Z.to_nat o) as [|n] eqn:Hn; [lia|].
    by rewrite replicate_S_end, last_snoc. }
  assert (Hlast : ∀ n, (n < length es)%nat →
            last (slide (prefilled_buffer s o) (take n es))
            = match n with O => Some s | S n' => es !! n' end).
  { intros [|n] Hn; [done|].
    destruct (lookup_lt_is_Some_2 es n) as [x Hx]; [lia|].
    by rewrite (take_S_r _ _ _ Hx), last_slide_snoc, Hx. }
  apply (f_equal last) in Heq. rewrite !Hlast in Heq by done.
  destruct i as [|i], j as [|j]; [done| | |].
  - exfalso. apply Hs. eapply list_elem_of_lookup_2. by symmetry.
  - exfalso. apply Hs. by eapply list_elem_of_lookup_2.
  - destruct (lookup_lt_is_Some_2 es i) as [x Hx]; [lia|].
    f_equal. apply (NoDup_lookup es i j x); [done|done|congruence].
Qed.

(** The loop from the state reached after [n] tokens of the sequence. *)
Lemma text_loop_regenerates (tok : E → list token) (o : Z) (corpus : list E)
    (ts : list token) (fuel n : nat) (st : loop_state) (w : @world E R) :
  1 <= o →
  (∀ entry, entry ∈ corpus → tok entry = ts) →
  NoDup ts → "$" ∉ ts → "^" ∉ ts →
  wc_positive wc → wc_total wc →
  self w = mkMarkov o "^" "$" tok None (_compute_transitions tok "^" "$" o corpus) →
  corpus ≠ [] →
  (n <= length ts + 1)%nat →
  (length ts + 1 - n < fuel)%nat →
  generated_tokens st = take n (ts ++ ["$"]) →
  last_tokens st = slide (prefilled_buffer "^" o) (take n (ts ++ ["$"])) →
  ∃ st' w',
    text_loop (_generate_next_token wc) emit_default None fuel st w = (Ret st', w')
    ∧ generated_tokens st' = ts ++ ["$"].
Proof.
  intros Ho Hsame Hnd Hend Hstart Hpos Htot.
  assert (Hes_nd : NoDup (ts ++ ["$"])).
  { apply NoDup_app. split; [done|]. split; [|apply NoDup_singleton].
    intros x Hx ->%list_elem_of_singleton. done. }
  assert (Hes_start : "^" ∉ ts ++ ["$"]).
  { intros [Hin|Hin%list_elem_of_singleton]%elem_of_app; done. }
  assert (Hes_len : length (ts ++ ["$"]) = (length ts + 1)%nat).
  { rewrite length_app. simpl. lia. }
  assert (Hbuf0 : prefilled_buffer "^" o ≠ []) by by apply prefilled_buffer_nonempty.
  revert n st w.
  induction fuel as [|fuel IH]; intros n st w Hself Hne Hn Hfuel Hg Hlt; [lia|].
  rewrite text_loop_S, Hself. cbn [_end_symbol].
  destruct (decide (n = length ts + 1)%nat) as [->|Hnlt].
  - (* the end sentinel has been drawn *)
    rewrite <- Hes_len, take_ge in Hg, Hlt by done.
    rewrite Hlt, last_slide_snoc by done.
    rewrite bool_decide_eq_false_2 by (by intros H; apply H).
    by exists st, w.
  - destruct (lookup_lt_is_Some_2 (ts ++ ["$"]) n) as [tn Htn]; [lia|].
    assert (Hlast : ∃ newest, last (last_tokens st) = Some newest ∧ newest ≠ "$").
    { rewrite Hlt. destruct n as [|n'].
      - exists "^". split; [|done]. simpl. unfold prefilled_buffer.
        destruct (Z.to_nat o) as [|k] eqn:Hk; [lia|].
        by rewrite replicate_S_end, last_snoc.
      - destruct (lookup_lt_is_Some_2 (ts ++ ["$"]) n') as [x Hx]; [lia|].
        exists x. rewrite (take_S_r _ _ _ Hx), last_slide_snoc by done.
        split; [done|]. intros ->.
        rewrite lookup_app_l in Hx by lia.
        apply Hend. by eapply list_elem_of_lookup_2. }
    destruct Hlast as (newest & Hlast & Hnewest).
    rewrite Hlast, bool_decide_eq_true_2 by done.
    destruct corpus as [|entry0 corpus0] eqn:Hcorpus; [done|].
    rewrite <- Hcorpus in *.
    assert (Hentry0 : entry0 ∈ corpus) by (rewrite Hcorpus; apply list_elem_of_here).
    assert (Hkey : (last_tokens st, tn) ∈ corpus_trace tok "^" "$" o corpus).
    { unfold corpus_trace. apply list_elem_of_bind. exists entry0.
      split; [|done]. unfold entry_trace. rewrite (Hsame entry0 Hentry0), Hlt.
      by apply emission_trace_at. }
    assert (Htrained : trained_buffer (corpus_trace tok "^" "$" o corpus) o "$"
                         (last_tokens st)).
    { split; [by rewrite Hlt, length_slide, length_prefilled_buffer|].
      intros _ _ _. by exists tn. }
    destruct (draw_trained wc tok o corpus (last_tokens st) newest (random w)
                Ho Hpos Htrained Hlast Hnewest) as (d & Hd & Hdne & Hdpos & _).
    unfold _generate_next_token. rewrite helper_unfold, Hself.
    cbn [transitions]. rewrite Hd.
    destruct (Htot (map_to_list d) (random w) Hdne Hdpos) as (t & r' & Hwc).
    rewrite Hwc.
    assert (Ht : t = tn).
    { apply Hpos in Hwc as [p [Hin _]]. apply elem_of_map_to_list in Hin.
      assert (Hc : (last_tokens st, t) ∈ corpus_trace tok "^" "$" o corpus).
      { apply counted_transitions_trace. unfold counted. rewrite Hd. simpl. eauto. }
      unfold corpus_trace in Hc.
      apply list_elem_of_bind in Hc as [entry [Hc Hentry]].
      unfold entry_trace in Hc. rewrite (Hsame entry Hentry) in Hc.
      apply emission_trace_full in Hc as (i & Hi & Hwin);
        [|by rewrite Hlt, length_slide].
      rewrite Hlt in Hwin.
      assert (n = i) as <-.
      { apply (window_determines_position "^" o (ts ++ ["$"])); try done.
        - lia.
        - by apply lookup_lt_Some in Hi. }
      congruence. }
    subst t. cbn [cap_reached].
    destruct (IH (S n) (record_emission emit_default tn st)
                (mkWorld (mkMarkov o "^" "$" tok None
                            (_compute_transitions tok "^" "$" o corpus)) r'))
      as (st' & w' & Hloop & Hres); try done; try lia.
    + simpl. unfold emit_default. by rewrite Hg, (take_S_r _ _ _ Htn).
    + simpl. by rewrite Hlt, (take_S_r _ _ _ Htn), slide_snoc.
    + by exists st', w'.
Qed.

(** X13. Round trip. A model trained on a corpus whose entries all
    tokenize to the same sequence, without a repeated token and without
    the sentinels, generates that sequence back: for every random source
    and a weighted choice that draws a positive-weight outcome from every
    mapping of the table, [generate_text] without a cap returns exactly
    the sequence (given fuel for its length plus two tests of the loop
    condition). *)
Theorem single_sequence_round_trip (corpus : list E) (o : Z)
    (tok : E → list token) (me : Markov E) (ts : list token) (fuel : nat) (r : R) :
  __init__ (Some corpus) o tok = Ret me →
  corpus ≠ [] →
  (∀ entry, entry ∈ corpus → tok entry = ts) →
  NoDup ts → "$" ∉ ts → "^" ∉ ts →
  wc_positive wc → wc_total wc →
  (length ts + 2 <= fuel)%nat →
  ∃ w', generate_text wc fuel None (mkWorld me r) = (Ret ts, w').
Proof.
  intros Hinit Hne Hsame Hnd Hend Hstart Hpos Htot Hfuel.
  destruct (__init___cases (Some corpus) o tok)
    as [[_ Hi]|[[_ Hi]|[(_ & _ & Hi)|(Ho & c & [= <-] & Hi)]]];
    rewrite Hi in Hinit; try discriminate Hinit.
  injection Hinit as <-.
  destruct (text_loop_regenerates tok o corpus ts fuel 0
              (initial_state (mkMarkov o "^" "$" tok None
                                (_compute_transitions tok "^" "$" o corpus)))
              (mkWorld (mkMarkov o "^" "$" tok None
                          (_compute_transitions tok "^" "$" o corpus)) r))
    as (st' & w' & Hloop & Hres); try done; try lia.
  exists w'. unfold generate_text. rewrite _text_generator_unfold.
  cbn [self]. rewrite Hloop, Hres, removelast_last. done.
Qed.

End MoreGeneratorFacts.

(** ** Draws from short keys *)

Section ShortKeys.
Context {E R : Type}.
Variable wc : list (token * Q) → R → option token * R.

(** X15. [_generate_next_token_helper] accepts a history shorter than the
    order: on a history of at most [j] tokens, the draw from a model of
    order [k ≥ j] is the draw from the model of order [j] trained on the
    same corpus, with the same outcome and the same use of the random
    source. *)
Theorem short_history_draw (corpus : list E) (j k : Z) (tok : E → list token)
    (me_j me_k : Markov E) (past_states : buffer) (r : R) :
  __init__ (Some corpus) j tok = Ret me_j →
  __init__ (Some corpus) k tok = Ret me_k →
  j <= k →
  (length past_states <= Z.to_nat j)%nat →
  (_generate_next_token_helper wc past_states (mkWorld me_k r)).1
  = (_generate_next_token_helper wc past_states (mkWorld me_j r)).1
  ∧ random (_generate_next_token_helper wc past_states (mkWorld me_k r)).2
    = random (_generate_next_token_helper wc past_states (mkWorld me_j r)).2.
Proof.
  intros Hj Hk Hjk Hlen.
  destruct (__init___cases (Some corpus) j tok)
    as [[_ Hi]|[[_ Hi]|[(_ & _ & Hi)|(_ & c & [= <-] & Hi)]]];
    rewrite Hi in Hj; try discriminate Hj.
  injection Hj as <-.
  destruct (__init___cases (Some corpus) k tok)
    as [[_ Hi']|[[_ Hi']|[(_ & _ & Hi')|(_ & c & [= <-] & Hi')]]];
    rewrite Hi' in Hk; try discriminate Hk.
  injection Hk as <-.
  rewrite !helper_unfold. cbn [self transitions random].
  rewrite (proj2 (lower_order_lookup tok "^" "$" j k corpus past_states Hjk Hlen)).
  destruct (_compute_transitions tok "^" "$" j corpus !! past_states) as [d|];
    [|done].
  by destruct (wc (map_to_list d) r) as [[t|] r'].
Qed.

End ShortKeys.

(** ** The further statements at concrete models *)

Lemma trained_table_shape_witness :
  _compute_transitions id "^" "$" 2 corpus_abac !! ["b"]
  = Some (relative_probs {[ "a" := 1; "b" := 1; "$" := 1 ]})
  ∧ (1 <= length ["b"] <= Z.to_nat 2)%nat.
Proof.
  assert (Hkey : _compute_transitions id "^" "$" 2 corpus_abac !! ["b"]
                 = Some (relative_probs {[ "a" := 1; "b" := 1; "$" := 1 ]}))
    by (vm_compute; reflexivity).
  split; [exact Hkey|].
  exact (proj1 (trained_table_shape id "^" "$" 2 corpus_abac ["b"] _ Hkey)).
Defined.

Lemma stored_probability_range_witness :
  _compute_transitions id "^" "$" 2 corpus_abac !! ["b"]
  = Some (relative_probs {[ "a" := 1; "b" := 1; "$" := 1 ]})
  ∧ relative_probs {[ "a" := 1; "b" := 1; "$" := 1 ]} !! "a" = Some (1 # 3)%Q
  ∧ (0 < 1 # 3)%Q ∧ (1 # 3 <= 1)%Q.
Proof.
  assert (Hkey : _compute_transitions id "^" "$" 2 corpus_abac !! ["b"]
                 = Some (relative_probs {[ "a" := 1; "b" := 1; "$" := 1 ]}))
    by (vm_compute; reflexivity).
  assert (Hp : relative_probs {[ "a" := 1; "b" := 1; "$" := 1 ]} !! "a"
               = Some (1 # 3)%Q) by (vm_compute; reflexivity).
  split; [exact Hkey|]. split; [exact Hp|].
  exact (stored_probability_range id "^" "$" 2 corpus_abac ["b"] _ "a" _ Hkey Hp).
Defined.

Lemma training_ignores_entry_order_witness :
  [["a"; "b"; "a"; "c"]; ["b"; "b"]] ≡ₚ [["b"; "b"]; ["a"; "b"; "a"; "c"]]
  ∧ _compute_transitions id "^" "$" 2 [["a"; "b"; "a"; "c"]; ["b"; "b"]]
    = _compute_transitions id "^" "$" 2 [["b"; "b"]; ["a"; "b"; "a"; "c"]].
Proof.
  assert (Hperm : [["a"; "b"; "a"; "c"]; ["b"; "b"]]
                  ≡ₚ [["b"; "b"]; ["a"; "b"; "a"; "c"]]) by apply perm_swap.
  split; [exact Hperm|].
  exact (proj2 (training_ignores_entry_order id "^" "$" 2 _ _ Hperm)).
Defined.

Lemma lower_order_embedded_witness :
  1 <= 2
  ∧ (length ["b"] <= Z.to_nat 1)%nat
  ∧ _compute_transitions id "^" "$" 2 corpus_abac !! ["b"]
    = _compute_transitions id "^" "$" 1 corpus_abac !! ["b"].
Proof.
  assert (Hjk : 1 <= 2) by lia.
  assert (Hlen : (length ["b"] <= Z.to_nat 1)%nat) by (simpl; lia).
  split; [exact Hjk|]. split; [exact Hlen|].
  exact (proj2 (lower_order_embedded id "^" "$" 1 2 corpus_abac ["b"] Hjk Hlen)).
Defined.

Lemma entries_are_paths_witness :
  1 <= 2
  ∧ ["a"; "b"; "a"; "c"] ∈ corpus_abac
  ∧ (id ["a"; "b"; "a"; "c"] ++ ["$"]) !! 2%nat = Some "a"
  ∧ ∃ d p,
      _compute_transitions id "^" "$" 2 corpus_abac
        !! slide (prefilled_buffer "^" 2) (take 2 (id ["a"; "b"; "a"; "c"] ++ ["$"]))
      = Some d
      ∧ d !! "a" = Some p ∧ (0 < p)%Q.
Proof.
  assert (Ho : 1 <= 2) by lia.
  assert (Hentry : ["a"; "b"; "a"; "c"] ∈ corpus_abac) by apply list_elem_of_here.
  assert (Hi : (id ["a"; "b"; "a"; "c"] ++ ["$"]) !! 2%nat = Some "a")
    by reflexivity.
  split; [exact Ho|]. split; [exact Hentry|]. split; [exact Hi|].
  exact (entries_are_paths id "^" "$" 2 corpus_abac ["a"; "b"; "a"; "c"] 2 "a"
           Ho Hentry Hi).
Defined.

Lemma generated_text_follows_table_witness :
  generate_text weighted_choice_list 5 None (mkWorld model_abc [])
  = (Ret ["a"; "b"; "c"], mkWorld model_abc [])
  ∧ ["a"; "b"; "c"] !! 1%nat = Some "b"
  ∧ ∃ d p,
      transitions model_abc
        !! slide (prefilled_buffer "^" 1) (take 1 ["a"; "b"; "c"]) = Some d
      ∧ d !! "b" = Some p ∧ (0 < p)%Q.
Proof.
  assert (Hgen : generate_text weighted_choice_list 5 None (mkWorld model_abc [])
                 = (Ret ["a"; "b"; "c"], mkWorld model_abc []))
    by (vm_compute; reflexivity).
  assert (Hi : ["a"; "b"; "c"] !! 1%nat = Some "b") by reflexivity.
  split; [exact Hgen|]. split; [exact Hi|].
  exact (generated_text_follows_table weighted_choice_list 5 None
           (mkWorld model_abc []) ["a"; "b"; "c"] (mkWorld model_abc []) 1 "b"
           weighted_choice_list_positive Hgen Hi).
Defined.

Lemma generated_text_has_no_end_sentinel_witness :
  generate_text weighted_choice_list 5 None (mkWorld model_abc [])
  = (Ret ["a"; "b"; "c"], mkWorld model_abc [])
  ∧ "$" ∉ ["a"; "b"; "c"].
Proof.
  assert (Hgen : generate_text weighted_choice_list 5 None (mkWorld model_abc [])
                 = (Ret ["a"; "b"; "c"], mkWorld model_abc []))
    by (vm_compute; reflexivity).
  split; [exact Hgen|].
  exact (generated_text_has_no_end_sentinel weighted_choice_list 5 None
           (mkWorld model_abc []) ["a"; "b"; "c"] (mkWorld model_abc []) Hgen).
Defined.

Lemma generated_tokens_from_corpus_witness :
  __init__ (Some corpus_abc) 1 id = Ret model_abc
  ∧ generate_text weighted_choice_list 5 None (mkWorld model_abc [])
    = (Ret ["a"; "b"; "c"], mkWorld model_abc [])
  ∧ "b" ∈ ["a"; "b"; "c"]
  ∧ ∃ entry, entry ∈ corpus_abc ∧ "b" ∈ id entry.
Proof.
  assert (Hinit : __init__ (Some corpus_abc) 1 id = Ret model_abc) by reflexivity.
  assert (Hgen : generate_text weighted_choice_list 5 None (mkWorld model_abc [])
                 = (Ret ["a"; "b"; "c"], mkWorld model_abc []))
    by (vm_compute; reflexivity).
  assert (Hin : "b" ∈ ["a"; "b"; "c"])
    by (apply list_elem_of_further, list_elem_of_here).
  split; [exact Hinit|]. split; [exact Hgen|]. split; [exact Hin|].
  exact (generated_tokens_from_corpus weighted_choice_list corpus_abc 1 id
           model_abc 5 None [] ["a"; "b"; "c"] (mkWorld model_abc []) "b"
           Hinit weighted_choice_list_positive Hgen Hin).
Defined.

Lemma nonpositive_cap_returns_empty_witness :
  __init__ (Some corpus_abc) 1 id = Ret model_abc
  ∧ -3 <= 0
  ∧ generate_text weighted_choice_list 1 (Some (-3)) (mkWorld model_abc [])
    = match _generate_next_token weighted_choice_list (prefilled_buffer "^" 1)
              (mkWorld model_abc []) with
      | (Ret _, w') => (Ret [], w')
      | (Raise e, w') => (Raise e, w')
      | (OutOfFuel, w') => (OutOfFuel, w')
      end.
Proof.
  assert (Hinit : __init__ (Some corpus_abc) 1 id = Ret model_abc) by reflexivity.
  assert (Hm : -3 <= 0) by lia.
  split; [exact Hinit|]. split; [exact Hm|].
  exact (nonpositive_cap_returns_empty weighted_choice_list corpus_abc 1 id
           model_abc 0 (-3) [] Hinit Hm).
Defined.

Lemma capped_length_exact_witness :
  0 <= 2
  ∧ generate_text weighted_choice_list 3 (Some 2) (mkWorld model_abc [])
    = (Ret ["a"; "b"], mkWorld model_abc [])
  ∧ ∃ st,
      text_loop (_generate_next_token weighted_choice_list) emit_default (Some 2) 3
        (initial_state model_abc) (mkWorld model_abc [])
      = (Ret st, mkWorld model_abc [])
      ∧ ["a"; "b"] = removelast (generated_tokens st)
      ∧ (Z.of_nat (length ["a"; "b"]) = 2
         ∨ (Z.of_nat (length ["a"; "b"]) < 2
            ∧ last (last_tokens st) = Some "$")).
Proof.
  assert (Hm : 0 <= 2) by lia.
  assert (Hgen : generate_text weighted_choice_list 3 (Some 2) (mkWorld model_abc [])
                 = (Ret ["a"; "b"], mkWorld model_abc []))
    by (vm_compute; reflexivity).
  split; [exact Hm|]. split; [exact Hgen|].
  exact (capped_length_exact weighted_choice_list 3 2 (mkWorld model_abc [])
           ["a"; "b"] (mkWorld model_abc []) Hm Hgen).
Defined.

Lemma single_sequence_round_trip_witness :
  __init__ (Some [["a"; "b"; "c"]; ["a"; "b"; "c"]]) 2 id
  = Ret (mkMarkov 2 "^" "$" id None
           (_compute_transitions id "^" "$" 2 [["a"; "b"; "c"]; ["a"; "b"; "c"]]))
  ∧ NoDup ["a"; "b"; "c"]
  ∧ ∃ w',
      generate_text weighted_choice_list 5 None
        (mkWorld (mkMarkov 2 "^" "$" id None
                    (_compute_transitions id "^" "$" 2
                       [["a"; "b"; "c"]; ["a"; "b"; "c"]]))
           [(1 # 3)%Q; (5 # 7)%Q])
      = (Ret ["a"; "b"; "c"], w').
Proof.
  assert (Hinit : __init__ (Some [["a"; "b"; "c"]; ["a"; "b"; "c"]]) 2 id
                  = Ret (mkMarkov 2 "^" "$" id None
                           (_compute_transitions id "^" "$" 2
                              [["a"; "b"; "c"]; ["a"; "b"; "c"]])))
    by reflexivity.
  assert (Hne : [["a"; "b"; "c"]; ["a"; "b"; "c"]] ≠ ([] : list (list token)))
    by discriminate.
  assert (Hsame : ∀ entry : list token,
             entry ∈ [["a"; "b"; "c"]; ["a"; "b"; "c"]] → id entry = ["a"; "b"; "c"]).
  { intros entry Hin. apply elem_of_cons in Hin as [->|Hin]; [reflexivity|].
    apply list_elem_of_singleton in Hin as ->. reflexivity. }
  assert (Hnd : NoDup ["a"; "b"; "c"]) by (apply (bool_decide_unpack _); vm_compute; exact I).
  assert (Hend : "$" ∉ ["a"; "b"; "c"]) by (apply (bool_decide_unpack _); vm_compute; exact I).
  assert (Hstart : "^" ∉ ["a"; "b"; "c"]) by (apply (bool_decide_unpack _); vm_compute; exact I).
  assert (Hfuel : (length ["a"; "b"; "c"] + 2 <= 5)%nat) by (simpl; lia).
  split; [exact Hinit|]. split; [exact Hnd|].
  exact (single_sequence_round_trip weighted_choice_list _ 2 id _ ["a"; "b"; "c"] 5
           [(1 # 3)%Q; (5 # 7)%Q] Hinit Hne Hsame Hnd Hend Hstart
           weighted_choice_list_positive weighted_choice_list_total Hfuel).
Defined.

Lemma short_history_draw_witness :
  __init__ (Some corpus_abac) 1 id
  = Ret (mkMarkov 1 "^" "$" id None (_compute_transitions id "^" "$" 1 corpus_abac))
  ∧ __init__ (Some corpus_abac) 2 id = Ret model_abac
  ∧ 1 <= 2
  ∧ (length ["b"] <= Z.to_nat 1)%nat
  ∧ (_generate_next_token_helper weighted_choice_list ["b"]
       (mkWorld model_abac [(1 # 2)%Q])).1
    = (_generate_next_token_helper weighted_choice_list ["b"]
         (mkWorld (mkMarkov 1 "^" "$" id None
                     (_compute_transitions id "^" "$" 1 corpus_abac))
            [(1 # 2)%Q])).1.
Proof.
  assert (Hj : __init__ (Some corpus_abac) 1 id
               = Ret (mkMarkov 1 "^" "$" id None
                        (_compute_transitions id "^" "$" 1 corpus_abac)))
    by reflexivity.
  assert (Hk : __init__ (Some corpus_abac) 2 id = Ret model_abac) by reflexivity.
  assert (Hjk : 1 <= 2) by lia.
  assert (Hlen : (length ["b"] <= Z.to_nat 1)%nat) by (simpl; lia).
  split; [exact Hj|]. split; [exact Hk|]. split; [exact Hjk|].
  split; [exact Hlen|].
  exact (proj1 (short_history_draw weighted_choice_list corpus_abac 1 2 id _
                  model_abac ["b"] [(1 # 2)%Q] Hj Hk Hjk Hlen)).
Defined.
